(** * The streaming query-result reader of the InfluxDB UI

    A shallow embedding of [runQuery], [processResponse] and
    [trimPartialLines] (the query API module of the UI), together with the
    parts of the web platform they call: the UTF-8 [TextDecoder], the
    [ReadableStream] reader of a response body and the abort signal of
    [fetch].

    Conventions.
    - A JavaScript string is the list of its UTF-16 code units ([text]).
    - A [Uint8Array] is a [list byte].
    - JavaScript numbers that hold indices and byte counts are integers far
      below 2^53, where the arithmetic of doubles is exact: they are [Z].
    - [FLUX_RESPONSE_BYTES_LIMIT] is imported by the module from the shared
      constants, so every definition takes it as a parameter.
    - An [async] function is run to completion against a response body whose
      future is laid out in advance (a [stream]): each [await reader.read()]
      takes the next event of it. *)

From Equations Require Import Equations.
From Stdlib Require Import List ZArith Lia Bool.
From Stdlib Require Import Strings.Byte Strings.String.
Import ListNotations.
Open Scope Z_scope.

(** ** JavaScript strings *)

Module JsString.

Definition code_unit := Z.
Definition text := list code_unit.

(** ['\n'] *)
Definition LF : code_unit := 10.

(** [s.length] *)
Definition str_length (s : text) : Z := Z.of_nat (List.length s).

(** [s[i]]: [None] stands for [undefined], which is what an index outside
    [0 .. s.length - 1] yields. *)
Definition at_index (s : text) (i : Z) : option code_unit :=
  if i <? 0 then None else nth_error s (Z.to_nat i).

(** [s[i] !== '\n'] is [negb (is_LF (at_index s i))]. *)
Definition is_LF (c : option code_unit) : bool :=
  match c with
  | Some u => u =? LF
  | None => false
  end.

(** The index normalisation of [String.prototype.slice]: a negative index
    counts from the end, and the result is clamped to [0 .. len]. *)
Definition clamp (len k : Z) : Z :=
  if k <? 0 then Z.max (len + k) 0 else Z.min k len.

(** [s.slice(b, e)] *)
Definition slice (s : text) (b e : Z) : text :=
  let len := str_length s in
  let from := clamp len b in
  let to := clamp len e in
  firstn (Z.to_nat (to - from)) (skipn (Z.to_nat from) s).

(** [s] ends with a newline character. *)
Definition ends_with_LF (s : text) : Prop := exists p, s = p ++ [LF].

(** [p] is a prefix of [s]; it is strict when something is left over. *)
Definition prefix (p s : text) : Prop := exists r, s = p ++ r.

End JsString.
Import JsString.

(** ** The line-boundary scanner

<<
const trimPartialLines = (partialResp: string): string => {
  let i = partialResp.length - 1
  while (partialResp[i] !== '\n') {
    if (i <= 0) { return partialResp }
    i -= 1
  }
  return partialResp.slice(0, i + 1)
}
>>
    [trim_scan partialResp i] is the [while] loop entered with the index [i],
    followed by the final [return]. The index only decreases while it is
    positive, which is the termination measure. *)

Equations? trim_scan (partialResp : text) (i : Z) : text
  by wf (Z.to_nat i) lt :=
  trim_scan partialResp i with is_LF (at_index partialResp i) => {
    | true := slice partialResp 0 (i + 1);
    | false with Z_le_gt_dec i 0 => {
        | left _ := partialResp;
        | right _ := trim_scan partialResp (i - 1) } }.
Proof. lia. Qed.

Definition trimPartialLines (partialResp : text) : text :=
  trim_scan partialResp (str_length partialResp - 1).

(** ** The platform's UTF-8 decoder

    [new TextDecoder()] is a UTF-8 decoder that replaces malformed input by
    U+FFFD ([fatal] is false) and drops a leading byte order mark
    ([ignoreBOM] is false). The definitions follow the UTF-8 decoder and the
    [decode] method of the Encoding Standard. *)

Module Utf8.

Definition code_point := Z.

Definition REPLACEMENT : code_point := 0xFFFD.
Definition BOM : code_point := 0xFEFF.

Definition byte_val (b : byte) : Z := Z.of_N (Byte.to_N b).

(** The variables of the UTF-8 decoder. *)
Record state := {
  cp : code_point;
  bytes_seen : Z;
  bytes_needed : Z;
  lower_boundary : Z;
  upper_boundary : Z
}.

Definition initial : state :=
  {| cp := 0; bytes_seen := 0; bytes_needed := 0;
     lower_boundary := 0x80; upper_boundary := 0xBF |}.

Definition between (lo b hi : Z) : bool := (lo <=? b) && (b <=? hi).

(** The handler on a byte when no continuation byte is awaited: the new
    state and the code points emitted. *)
Definition lead (b : Z) : state * list code_point :=
  if between 0x00 b 0x7F then (initial, [b])
  else if between 0xC2 b 0xDF then
    ({| cp := Z.land b 0x1F; bytes_seen := 0; bytes_needed := 1;
        lower_boundary := 0x80; upper_boundary := 0xBF |}, [])
  else if between 0xE0 b 0xEF then
    ({| cp := Z.land b 0xF; bytes_seen := 0; bytes_needed := 2;
        lower_boundary := if b =? 0xE0 then 0xA0 else 0x80;
        upper_boundary := if b =? 0xED then 0x9F else 0xBF |}, [])
  else if between 0xF0 b 0xF4 then
    ({| cp := Z.land b 0x7; bytes_seen := 0; bytes_needed := 3;
        lower_boundary := if b =? 0xF0 then 0x90 else 0x80;
        upper_boundary := if b =? 0xF4 then 0x8F else 0xBF |}, [])
  else (initial, [REPLACEMENT]).

(** The handler on a byte. A byte outside the awaited range ends the current
    sequence with U+FFFD and is handled again as a first byte. *)
Definition handler (st : state) (b : Z) : state * list code_point :=
  if bytes_needed st =? 0 then lead b
  else if negb (between (lower_boundary st) b (upper_boundary st)) then
    let '(st', out) := lead b in (st', REPLACEMENT :: out)
  else
    let c := Z.lor (Z.shiftl (cp st) 6) (Z.land b 0x3F) in
    let seen := bytes_seen st + 1 in
    if seen =? bytes_needed st then (initial, [c])
    else ({| cp := c; bytes_seen := seen; bytes_needed := bytes_needed st;
             lower_boundary := 0x80; upper_boundary := 0xBF |}, []).

(** The handler over the bytes of one input, in order. *)
Fixpoint run (st : state) (input : list byte) : state * list code_point :=
  match input with
  | [] => (st, [])
  | b :: rest =>
      let '(st1, out1) := handler st (byte_val b) in
      let '(st2, out2) := run st1 rest in
      (st2, out1 ++ out2)
  end.

(** The handler at the end of the input: a sequence left incomplete is
    given up and replaced by U+FFFD. *)
Definition flush (st : state) : state * list code_point :=
  if bytes_needed st =? 0 then (st, [])
  else ({| cp := cp st; bytes_seen := bytes_seen st; bytes_needed := 0;
           lower_boundary := lower_boundary st;
           upper_boundary := upper_boundary st |}, [REPLACEMENT]).

(** A code point as UTF-16 code units. *)
Definition utf16 (c : code_point) : text :=
  if c <? 0x10000 then [c]
  else
    let c' := c - 0x10000 in
    [0xD800 + Z.shiftr c' 10; 0xDC00 + Z.land c' 0x3FF].

Definition to_text (cs : list code_point) : text := flat_map utf16 cs.

End Utf8.

(** The [TextDecoder] object: its decoder, its "BOM seen" flag and its
    "do not flush" flag. *)
Record TextDecoder := {
  decoder : Utf8.state;
  BOM_seen : bool;
  do_not_flush : bool
}.

(** [new TextDecoder()] *)
Definition new_TextDecoder : TextDecoder :=
  {| decoder := Utf8.initial; BOM_seen := false; do_not_flush := false |}.

(** The output of a call as a string: the first code point the decoder ever
    emits is dropped when it is the byte order mark. *)
Definition serialize (seen : bool) (out : list Utf8.code_point)
  : bool * text :=
  match out with
  | [] => (seen, [])
  | c :: rest =>
      if negb seen && (c =? Utf8.BOM) then (true, Utf8.to_text rest)
      else (true, Utf8.to_text out)
  end.

(** [d.decode(input, {stream})]. Unless the previous call was a streaming
    one, the decoder starts afresh. A call that is not a streaming one ends
    the input: it flushes the incomplete sequence. *)
Definition decode (d : TextDecoder) (input : list byte) (stream : bool)
  : text * TextDecoder :=
  let st0 := if do_not_flush d then decoder d else Utf8.initial in
  let seen0 := if do_not_flush d then BOM_seen d else false in
  let '(st1, out1) := Utf8.run st0 input in
  let '(st2, out2) := if stream then (st1, []) else Utf8.flush st1 in
  let '(seen, s) := serialize seen0 (out1 ++ out2) in
  (s, {| decoder := st2; BOM_seen := seen; do_not_flush := stream |}).

(** [new TextDecoder().decode(input)]: the text of a whole byte sequence. *)
Definition decode_all (input : list byte) : text :=
  fst (decode new_TextDecoder input false).

(** ** The response body and its reader *)

(** An [Error] object, as far as the module looks at it: its [name]. *)
Record Error := { name : string }.

(** The error with which the platform rejects an aborted request. *)
Definition AbortError : Error := {| name := "AbortError" |}.

(** A promise once it is settled. *)
Inductive settled (E A : Type) : Type :=
| Fulfilled (a : A)
| Rejected (e : E).
Arguments Fulfilled {E A} a.
Arguments Rejected {E A} e.

(** What the body of a response is going to deliver: chunks in arrival order,
    until the body ends or fails. *)
Inductive stream : Type :=
| Closed
| Errored (e : Error)
| Chunk (value : list byte) (rest : stream).

(** [value.byteLength] *)
Definition byteLength (value : list byte) : Z := Z.of_nat (List.length value).

(** The reader of a body: what is still to come, and two ghost fields that
    record its history: the chunks it has handed out, oldest first, and how
    many times [cancel] was called on it. *)
Record Reader := {
  body : stream;
  delivered : list (list byte);
  cancel_calls : nat
}.

(** [response.body.getReader()] *)
Definition getReader (response : stream) : Reader :=
  {| body := response; delivered := []; cancel_calls := 0 |}.

(** The result of [reader.read()] once the promise is fulfilled. *)
Inductive ReadResult : Type :=
| done
| value_of (value : list byte).

(** [await reader.read()]: a closed body reports [done], an errored body
    rejects, otherwise the next chunk is handed out. *)
Definition read (reader : Reader) : settled Error ReadResult * Reader :=
  match body reader with
  | Closed => (Fulfilled done, reader)
  | Errored e => (Rejected e, reader)
  | Chunk value rest =>
      (Fulfilled (value_of value),
       {| body := rest;
          delivered := delivered reader ++ [value];
          cancel_calls := cancel_calls reader |})
  end.

(** [reader.cancel()]: releases the body; what was still to come is
    discarded. *)
Definition cancel (reader : Reader) : Reader :=
  {| body := match body reader with Errored e => Errored e | _ => Closed end;
     delivered := delivered reader;
     cancel_calls := S (cancel_calls reader) |}.

(** ** The stream consumer

<<
const processResponse = async (response: Response): Promise<RunQueryResult> => {
  const reader = response.body.getReader()
  const decoder = new TextDecoder()

  let csv = ''
  let bytesRead = 0
  let didTruncate = false

  let read = await reader.read()

  while (!read.done) {
    const text = decoder.decode(read.value)

    bytesRead += read.value.byteLength

    if (bytesRead > FLUX_RESPONSE_BYTES_LIMIT) {
      csv += trimPartialLines(text)
      didTruncate = true
      break
    } else {
      csv += text
      read = await reader.read()
    }
  }

  reader.cancel()

  return { csv, bytesRead, didTruncate }
}
>>
*)

Record RunQueryResult := {
  csv : text;
  didTruncate : bool;
  bytesRead : Z
}.

(** The loop, from an [await reader.read()] on: the three local variables at
    the exit of the loop, or the error that the [await] raised, and the
    reader as the loop leaves it. The recursion follows the body, of which
    every iteration takes one chunk; [pending], [handed] and [calls] are the
    fields of the reader. *)
Fixpoint read_loop (FLUX_RESPONSE_BYTES_LIMIT : Z) (decoder : TextDecoder)
    (pending : stream) (handed : list (list byte)) (calls : nat)
    (csv : text) (bytesRead : Z)
  : settled Error RunQueryResult * Reader :=
  match pending with
  | Errored e =>
      (* the await raises: nothing below it runs *)
      (Rejected e,
       {| body := pending; delivered := handed; cancel_calls := calls |})
  | Closed =>
      (* read.done: the loop ends *)
      (Fulfilled {| csv := csv; didTruncate := false; bytesRead := bytesRead |},
       {| body := pending; delivered := handed; cancel_calls := calls |})
  | Chunk value rest =>
      let '(text, decoder) := decode decoder value false in
      let bytesRead := bytesRead + byteLength value in
      if bytesRead >? FLUX_RESPONSE_BYTES_LIMIT then
        (* break *)
        (Fulfilled {| csv := csv ++ trimPartialLines text;
                      didTruncate := true;
                      bytesRead := bytesRead |},
         {| body := rest; delivered := handed ++ [value];
            cancel_calls := calls |})
      else
        read_loop FLUX_RESPONSE_BYTES_LIMIT decoder rest (handed ++ [value])
          calls (csv ++ text) bytesRead
  end.

Definition processResponse (FLUX_RESPONSE_BYTES_LIMIT : Z) (response : stream)
  : settled Error RunQueryResult * Reader :=
  let reader := getReader response in
  let decoder := new_TextDecoder in
  match read_loop FLUX_RESPONSE_BYTES_LIMIT decoder
          (body reader) (delivered reader) (cancel_calls reader) [] 0 with
  | (Fulfilled result, reader) => (Fulfilled result, cancel reader)
  | (Rejected e, reader) => (Rejected e, reader)
  end.

(** ** The request launcher

<<
  const controller = new AbortController()
  const request = fetch(url, { ..., signal: controller.signal })
  const promise = request
    .then(processResponse)
    .catch(e =>
      e.name === 'AbortError'
        ? Promise.reject(new CancellationError())
        : Promise.reject(e)
    )
  return { promise, cancel: () => controller.abort() }
>>
*)

(** How the promise of [runQuery] can be rejected. *)
Inductive rejection : Type :=
| CancellationError
| Failure (e : Error).

(** How [fetch] settles: the request fails, or a response arrives with its
    body yet to be read. *)
Inductive fetched : Type :=
| FetchFailed (e : Error)
| Response (response : stream).

(** The moment at which the caller calls [cancel], by what the transfer is
    waiting for: the response, or the read number [k] of the body (the first
    read is number 0). *)
Inductive moment : Type :=
| AwaitingResponse
| AwaitingRead (k : nat).

(** The platform's abort of a body during its read number [k]: the reads
    before it deliver what the network delivered, the read number [k] is
    rejected with an [AbortError] whatever the network was about to deliver.
    A body that has ended before is left as it is. *)
Fixpoint abort_body (k : nat) (s : stream) : stream :=
  match k, s with
  | O, _ => Errored AbortError
  | S k', Chunk value rest => Chunk value (abort_body k' rest)
  | S _, Closed => Closed
  | S _, Errored e => Errored e
  end.

(** [fetch(url, {signal})], where [network] is how the request goes when it is
    left alone and [abort] is the moment of [controller.abort()], if any. *)
Definition fetch (network : fetched) (abort : option moment) : fetched :=
  match abort with
  | None => network
  | Some AwaitingResponse => FetchFailed AbortError
  | Some (AwaitingRead k) =>
      match network with
      | FetchFailed e => FetchFailed e
      | Response response => Response (abort_body k response)
      end
  end.

(** The handler given to [catch]. *)
Definition on_rejected (e : Error) : settled rejection RunQueryResult :=
  if String.eqb (name e) "AbortError"
  then Rejected CancellationError
  else Rejected (Failure e).

(** [request.then(processResponse).catch(...)] *)
Definition promise (FLUX_RESPONSE_BYTES_LIMIT : Z) (request : fetched)
  : settled rejection RunQueryResult :=
  match request with
  | FetchFailed e => on_rejected e
  | Response response =>
      match fst (processResponse FLUX_RESPONSE_BYTES_LIMIT response) with
      | Fulfilled result => Fulfilled result
      | Rejected e => on_rejected e
      end
  end.

(** The promise of the handle that [runQuery] returns, settled, when the
    caller calls the handle's [cancel] at the moment [abort] (or never). The
    arguments [orgID], [query] and [extern] only shape the request that
    [network] answers. *)
Definition runQuery (FLUX_RESPONSE_BYTES_LIMIT : Z) (network : fetched)
    (abort : option moment) : settled rejection RunQueryResult :=
  promise FLUX_RESPONSE_BYTES_LIMIT (fetch network abort).

(** ** Payloads *)

(** A body that delivers [chunks] and then goes on as [tail]. *)
Fixpoint chunks_then (chunks : list (list byte)) (tail : stream) : stream :=
  match chunks with
  | [] => tail
  | value :: rest => Chunk value (chunks_then rest tail)
  end.

(** A payload delivered in full: its chunks, then the end of the body. *)
Definition payload (chunks : list (list byte)) : stream :=
  chunks_then chunks Closed.

(** The total byte size of a payload. *)
Definition total_bytes (chunks : list (list byte)) : Z :=
  fold_right (fun value n => byteLength value + n) 0 chunks.

(** The decoded payload as the consumer's decoder yields it: the text of each
    chunk of the payload, in order. *)
Definition decoded (chunks : list (list byte)) : text :=
  flat_map decode_all chunks.

(** The decoding of the payload as a whole is [decode_all] of its bytes put
    together. Where one chunk ends and the next begins can change what the
    consumer's decoder yields in two ways, and in these two only: a chunk
    ends inside a multi-byte sequence, or a chunk other than the first
    begins with a byte order mark. *)

(** The chunk ends where a character ends: the decoder awaits no
    continuation byte after it. *)
Definition ends_complete (value : list byte) : bool :=
  Utf8.bytes_needed (fst (Utf8.run Utf8.initial value)) =? 0.

(** The first code point that the decoder emits on the chunk is the byte
    order mark. *)
Definition starts_with_BOM (value : list byte) : bool :=
  match snd (Utf8.run Utf8.initial value) with
  | c :: _ => c =? Utf8.BOM
  | [] => false
  end.

(** The boundary between the chunk [v] and the next chunk [w] cuts no
    character and hides no byte order mark. *)
Definition boundary_ok (v w : list byte) : bool :=
  ends_complete v && negb (starts_with_BOM w).

(** Every boundary between two chunks of the payload is such a one. *)
Fixpoint aligned (chunks : list (list byte)) : bool :=
  match chunks with
  | [] => true
  | v :: rest =>
      match rest with
      | [] => true
      | w :: _ => boundary_ok v w && aligned rest
      end
  end.

(** A chunk of single-byte characters only. *)
Definition ascii_only (value : list byte) : bool :=
  forallb (fun b => Utf8.byte_val b <? 0x80) value.

(** The transfer is waiting at the moment [m]: the response is always waited
    for; the read number [k] is waited for when the network delivers [k]
    chunks first and the consumer takes them all, which it does when they
    fit within the cap. *)
Definition in_flight (FLUX_RESPONSE_BYTES_LIMIT : Z) (network : fetched)
    (m : moment) : Prop :=
  match m with
  | AwaitingResponse => True
  | AwaitingRead k =>
      exists chunks tail,
        network = Response (chunks_then chunks tail) /\
        List.length chunks = k /\
        total_bytes chunks <= FLUX_RESPONSE_BYTES_LIMIT
  end.

(** The payload of the scenarios: the three records [a,b], [c,d] and [e,f],
    each ended by a newline, 12 bytes. *)
Definition three_records : list byte :=
  [x61; x2c; x62; x0a; x63; x2c; x64; x0a; x65; x2c; x66; x0a].

(** ** Buckets and members: the Go side

    [BucketFilter] (bucket.go) and the member handlers of the HTTP package.
    A Go pointer that may be [nil] is an [option]; a Go function that
    returns a value and an [error] returns a [result]; a handler is the list
    of what it does to its [http.ResponseWriter], in order. The calls to the
    logger are left out. *)

Module Influxdb.

(** [type ID uint64] *)
Definition ID := N.

(** An [error] value: an [*influxdb.Error] with its code and message, or an
    error made elsewhere. *)
Inductive go_error : Type :=
| InfluxError (Code Msg : string)
| ForeignError (what : string).

Inductive result (T : Type) : Type :=
| Ok (v : T)
| Err (e : go_error).
Arguments Ok {T} v.
Arguments Err {T} e.

(** What the two files take from the rest of the repository and from the
    libraries, and do not define: the error code, the mapping type of
    organizations, the methods of [ID], the [User] struct and its JSON
    decoding from a request body, the [UserResponse] of the user handlers,
    and whether [encodeResponse] fails on a value. *)
Class Externals := {
  EInvalid : string;
  OrgMappingType : N;
  ID_String : ID -> string;
  ID_DecodeFromString : string -> result ID;
  ID_Valid : ID -> bool;
  User : Type;
  User_ID : User -> ID;
  json_Decode_User : string -> result User;
  UserResponse : Type;
  newUserResponse : User -> UserResponse
}.

(** *** bucket.go *)

Record BucketFilter := {
  FilterID : option ID;
  Name : option string;
  OrganizationID : option ID;
  Org : option string
}.

(** A Go [map[string][]string], as the list of its entries. *)
Definition url_values := list (string * list string).

(** [m[k]], with whether the key is there. *)
Fixpoint map_get (k : string) (m : url_values) : option (list string) :=
  match m with
  | [] => None
  | (k', v) :: rest => if String.eqb k k' then Some v else map_get k rest
  end.

(** [m[k] = v] *)
Fixpoint map_set (k : string) (v : list string) (m : url_values)
  : url_values :=
  match m with
  | [] => [(k, v)]
  | (k', v') :: rest =>
      if String.eqb k k' then (k, v) :: rest else (k', v') :: map_set k v rest
  end.

(** [if p != nil { ... }] on the state [st]. *)
Definition if_set {A S : Type} (p : option A) (body : A -> S -> S) (st : S)
  : S :=
  match p with
  | Some a => body a st
  | None => st
  end.

Section Bucket.

Context {E : Externals}.

(** [func (f BucketFilter) QueryParams() map[string][]string] *)
Definition QueryParams (f : BucketFilter) : url_values :=
  let qp := [] in
  let qp := if_set (FilterID f)
              (fun id => map_set "id" [ID_String id]) qp in
  let qp := if_set (Name f) (fun name => map_set "name" [name]) qp in
  let qp := if_set (OrganizationID f)
              (fun id => map_set "orgID" [ID_String id]) qp in
  let qp := if_set (Org f) (fun org => map_set "org" [org]) qp in
  qp.

(** The [parts] of [String], as the four [append]s leave them. *)
Definition filter_parts (f : BucketFilter) : list string :=
  let parts := [] in
  let parts := if_set (FilterID f)
      (fun id parts => parts ++ [String.append "Bucket ID: " (ID_String id)])
      parts in
  let parts := if_set (Name f)
      (fun name parts => parts ++ [String.append "Bucket Name: " name])
      parts in
  let parts := if_set (OrganizationID f)
      (fun id parts => parts ++ [String.append "Org ID: " (ID_String id)])
      parts in
  let parts := if_set (Org f)
      (fun org parts => parts ++ [String.append "Org Name: " org])
      parts in
  parts.

(** [func (f BucketFilter) String() string]; [strings.Join] is
    [String.concat]. *)
Definition BucketFilter_String (f : BucketFilter) : string :=
  String.append "[" (String.append (String.concat ", " (filter_parts f)) "]").

End Bucket.

(** *** The member handlers *)

(** [httprouter.Params] and its [ByName]: the value of the first parameter of
    that name, or the empty string. *)
Definition Params := list (string * string).

Fixpoint ByName (ps : Params) (name : string) : string :=
  match ps with
  | [] => EmptyString
  | (k, v) :: rest => if String.eqb k name then v else ByName rest name
  end.

(** The fields of [influxdb.UserResourceMapping] and of
    [influxdb.UserResourceMappingFilter] that the handlers use. *)
Record UserResourceMapping := {
  urm_UserID : ID;
  urm_UserType : string;
  urm_MappingType : N;
  urm_ResourceType : string;
  urm_ResourceID : ID
}.

Record UserResourceMappingFilter := {
  filter_ResourceID : ID;
  filter_ResourceType : string;
  filter_UserType : string
}.

Record postMemberRequest := {
  post_MemberID : ID;
  post_ResourceID : ID
}.

Record getMembersRequest := {
  get_MemberID : ID;
  get_ResourceID : ID
}.

Record deleteMemberRequest := {
  delete_MemberID : ID;
  delete_ResourceID : ID
}.

Section Members.

Context {E : Externals}.

Record resourceUserResponse := {
  Role : string;
  embedded_UserResponse : UserResponse
}.

Record resourceUsersResponse := {
  Links : list (string * string);
  Users : list resourceUserResponse
}.

(** [MemberBackend], with the two services as what they answer. *)
Record MemberBackend := {
  backend_ResourceType : string;
  backend_UserType : string;
  FindUserResourceMappings :
    UserResourceMappingFilter -> result (list UserResourceMapping);
  CreateUserResourceMapping : UserResourceMapping -> option go_error;
  DeleteUserResourceMapping : ID -> ID -> option go_error;
  FindUserByID : ID -> result User
}.

(** What a handler does to the response writer. [encodeResponse] is given
    the status and the value; [encode_error] says whether it fails. *)
Inductive written : Type :=
| HandleHTTPError (e : go_error)
| EncodeUser (status : Z) (v : resourceUserResponse)
| EncodeUsers (status : Z) (v : resourceUsersResponse)
| WriteHeader (status : Z).

Definition StatusOK : Z := 200.
Definition StatusCreated : Z := 201.
Definition StatusNoContent : Z := 204.

Definition newResourceUserResponse (u : User) (userType : string)
  : resourceUserResponse :=
  {| Role := userType; embedded_UserResponse := newUserResponse u |}.

(** [fmt.Sprintf("/api/v2/%s/%s/%ss", ...)], the ID printed by its
    [String] method. *)
Definition self_link (f : UserResourceMappingFilter) : string :=
  String.concat EmptyString
    ["/api/v2/"; filter_ResourceType f; "/";
     ID_String (filter_ResourceID f); "/"; filter_UserType f; "s"]%string.

Definition newResourceUsersResponse (f : UserResourceMappingFilter)
    (users : list User) : resourceUsersResponse :=
  {| Links := [("self"%string, self_link f)];
     Users :=
       fold_left
         (fun rs user =>
            rs ++ [newResourceUserResponse user (filter_UserType f)])
         users [] |}.

Definition decodePostMemberRequest (params : Params) (body : string)
  : result postMemberRequest :=
  let id := ByName params "id" in
  if String.eqb id EmptyString then Err (InfluxError EInvalid "url missing id")
  else
    match ID_DecodeFromString id with
    | Err e => Err e
    | Ok rid =>
        match json_Decode_User body with
        | Err e => Err e
        | Ok u =>
            if negb (ID_Valid (User_ID u)) then
              Err (InfluxError EInvalid "user id missing or invalid")
            else Ok {| post_MemberID := User_ID u; post_ResourceID := rid |}
        end
    end.

(** The [MemberID] of the request is left at its zero value. *)
Definition decodeGetMembersRequest (params : Params)
  : result getMembersRequest :=
  let id := ByName params "id" in
  if String.eqb id EmptyString then Err (InfluxError EInvalid "url missing id")
  else
    match ID_DecodeFromString id with
    | Err e => Err e
    | Ok i => Ok {| get_MemberID := 0%N; get_ResourceID := i |}
    end.

Definition decodeDeleteMemberRequest (params : Params)
  : result deleteMemberRequest :=
  let id := ByName params "id" in
  if String.eqb id EmptyString then
    Err (InfluxError EInvalid "url missing resource id")
  else
    match ID_DecodeFromString id with
    | Err e => Err e
    | Ok rid =>
        let id := ByName params "userID" in
        if String.eqb id EmptyString then
          Err (InfluxError EInvalid "url missing member id")
        else
          match ID_DecodeFromString id with
          | Err e => Err e
          | Ok mid =>
              Ok {| delete_MemberID := mid; delete_ResourceID := rid |}
          end
    end.

(** [encodeResponse], then [HandleHTTPError] when it fails. *)
Definition encode_then_handle (w : written) (encode_error : option go_error)
  : list written :=
  match encode_error with
  | None => [w]
  | Some e => [w; HandleHTTPError e]
  end.

(** [newPostMemberHandler(b)], on the parameters and the body of a request;
    [encode_error] is what [encodeResponse] returns if it is reached. *)
Definition newPostMemberHandler (b : MemberBackend)
    (encode_error : option go_error) (params : Params) (body : string)
  : list written :=
  match decodePostMemberRequest params body with
  | Err e => [HandleHTTPError e]
  | Ok req =>
      match FindUserByID b (post_MemberID req) with
      | Err e => [HandleHTTPError e]
      | Ok user =>
          let mapping :=
            {| urm_ResourceID := post_ResourceID req;
               urm_ResourceType := backend_ResourceType b;
               urm_UserID := post_MemberID req;
               urm_UserType := backend_UserType b;
               urm_MappingType := 0 |} in
          match CreateUserResourceMapping b mapping with
          | Some e => [HandleHTTPError e]
          | None =>
              encode_then_handle
                (EncodeUser StatusCreated
                   (newResourceUserResponse user (backend_UserType b)))
                encode_error
          end
      end
  end.

(** The loop of [newGetMembersHandler] over the mappings: the users found so
    far, or the error of the lookup that failed. *)
Fixpoint members_loop (b : MemberBackend) (mappings : list UserResourceMapping)
    (users : list User) : result (list User) :=
  match mappings with
  | [] => Ok users
  | m :: rest =>
      if N.eqb (urm_MappingType m) OrgMappingType then
        (* continue *)
        members_loop b rest users
      else
        match FindUserByID b (urm_UserID m) with
        | Err e => Err e
        | Ok user => members_loop b rest (users ++ [user])
        end
  end.

(** A mapping that the loop looks up: any but the mapping of an
    organization. *)
Definition looked_up (m : UserResourceMapping) : bool :=
  negb (N.eqb (urm_MappingType m) OrgMappingType).

Definition newGetMembersHandler (b : MemberBackend)
    (encode_error : option go_error) (params : Params) : list written :=
  match decodeGetMembersRequest params with
  | Err e => [HandleHTTPError e]
  | Ok req =>
      let filter :=
        {| filter_ResourceID := get_ResourceID req;
           filter_ResourceType := backend_ResourceType b;
           filter_UserType := backend_UserType b |} in
      match FindUserResourceMappings b filter with
      | Err e => [HandleHTTPError e]
      | Ok mappings =>
          match members_loop b mappings [] with
          | Err e => [HandleHTTPError e]
          | Ok users =>
              encode_then_handle
                (EncodeUsers StatusOK (newResourceUsersResponse filter users))
                encode_error
          end
      end
  end.

Definition newDeleteMemberHandler (b : MemberBackend) (params : Params)
  : list written :=
  match decodeDeleteMemberRequest params with
  | Err e => [HandleHTTPError e]
  | Ok req =>
      match DeleteUserResourceMapping b (delete_ResourceID req)
              (delete_MemberID req) with
      | Some e => [HandleHTTPError e]
      | None => [WriteHeader StatusNoContent]
      end
  end.

End Members.

(** An instance of the externals to run the definitions on. An ID is written
    in binary digits, lowest first, after a [p], and zero is [z]; a user is
    its ID, and the body of a request is the ID of the user as text. *)
Definition char_0 : Ascii.ascii := Ascii.ascii_of_N 48.
Definition char_1 : Ascii.ascii := Ascii.ascii_of_N 49.
Definition char_p : Ascii.ascii := Ascii.ascii_of_N 112.
Definition char_z : Ascii.ascii := Ascii.ascii_of_N 122.

Fixpoint pos_string (p : positive) : string :=
  match p with
  | xH => EmptyString
  | xO q => String char_0 (pos_string q)
  | xI q => String char_1 (pos_string q)
  end.

Definition N_string (n : N) : string :=
  match n with
  | N0 => String char_z EmptyString
  | Npos p => String char_p (pos_string p)
  end.

Fixpoint parse_pos (s : string) : option positive :=
  match s with
  | EmptyString => Some xH
  | String c rest =>
      match parse_pos rest with
      | None => None
      | Some q =>
          if Ascii.eqb c char_0 then Some (xO q)
          else if Ascii.eqb c char_1 then Some (xI q)
          else None
      end
  end.

Definition parse_N (s : string) : result N :=
  match s with
  | String c rest =>
      if Ascii.eqb c char_z then
        match rest with
        | EmptyString => Ok 0%N
        | _ => Err (ForeignError "malformed id")
        end
      else if Ascii.eqb c char_p then
        match parse_pos rest with
        | Some q => Ok (Npos q)
        | None => Err (ForeignError "malformed id")
        end
      else Err (ForeignError "malformed id")
  | EmptyString => Err (ForeignError "malformed id")
  end.

Definition sample_externals : Externals :=
  {| EInvalid := "invalid";
     OrgMappingType := 1;
     ID_String := N_string;
     ID_DecodeFromString := parse_N;
     ID_Valid := fun id => negb (N.eqb id 0);
     User := N;
     User_ID := fun u => u;
     json_Decode_User := parse_N;
     UserResponse := N;
     newUserResponse := fun u => u |}.

(** A backend over the sample: the resource 5 has the users 2 and 3 as
    members and is mapped to an organization; the user 3 is unknown to the
    user service. *)
Definition sample_backend (known : N -> bool)
  : @MemberBackend sample_externals :=
  {| backend_ResourceType := "buckets";
     backend_UserType := "member";
     FindUserResourceMappings := fun f =>
       Ok [ {| urm_UserID := 9%N; urm_UserType := "member";
               urm_MappingType := 1;
               urm_ResourceType := filter_ResourceType f;
               urm_ResourceID := filter_ResourceID f |};
            {| urm_UserID := 2%N; urm_UserType := "member";
               urm_MappingType := 0;
               urm_ResourceType := filter_ResourceType f;
               urm_ResourceID := filter_ResourceID f |};
            {| urm_UserID := 3%N; urm_UserType := "member";
               urm_MappingType := 0;
               urm_ResourceType := filter_ResourceType f;
               urm_ResourceID := filter_ResourceID f |} ];
     CreateUserResourceMapping := fun _ => None;
     DeleteUserResourceMapping := fun _ _ => None;
     FindUserByID := fun id =>
       if known id then @Ok (@User sample_externals) id
       else Err (ForeignError "user not found") |}.

End Influxdb.

(** The number of bytes of the sequence that the decoder is in the middle
    of: the first byte and the continuation bytes seen. *)
Definition pending_bytes (st : Utf8.state) : Z :=
  if Utf8.bytes_needed st =? 0 then 0 else Utf8.bytes_seen st + 1.

(** ** The line-boundary scanner: proofs *)

Section Scanner.

Implicit Types (s a b p : text) (i j : Z).

(** The loop, one iteration at a time. *)
Lemma trim_scan_step s i :
  trim_scan s i =
  if is_LF (at_index s i) then slice s 0 (i + 1)
  else if i <=? 0 then s
  else trim_scan s (i - 1).
Proof.
  rewrite trim_scan_equation_1.
  destruct (is_LF (at_index s i)); cbn; [reflexivity|].
  destruct (Z_le_gt_dec i 0) as [Hle|Hgt]; cbn.
  - apply Z.leb_le in Hle. rewrite Hle. reflexivity.
  - assert (Hf : (i <=? 0) = false) by (apply Z.leb_gt; lia).
    rewrite Hf. reflexivity.
Qed.

Lemma at_index_app_left a b i :
  0 <= i < str_length a -> at_index (a ++ b) i = at_index a i.
Proof.
  unfold at_index, str_length. intros Hi.
  destruct (i <? 0); [reflexivity|].
  apply nth_error_app1. lia.
Qed.

Lemma at_index_app_right a b i :
  str_length a <= i -> at_index (a ++ b) i = at_index b (i - str_length a).
Proof.
  unfold at_index, str_length. intros Hi.
  assert (H1 : (i <? 0) = false) by (apply Z.ltb_ge; lia).
  assert (H2 : (i - Z.of_nat (List.length a) <? 0) = false)
    by (apply Z.ltb_ge; lia).
  rewrite H1, H2, nth_error_app2 by lia.
  f_equal. lia.
Qed.

Lemma is_LF_inv s i : is_LF (at_index s i) = true -> at_index s i = Some LF.
Proof.
  destruct (at_index s i) as [u|]; cbn; [|discriminate].
  intros H. apply Z.eqb_eq in H. now subst.
Qed.

Lemma at_index_In s i u : at_index s i = Some u -> In u s.
Proof.
  unfold at_index. destruct (i <? 0); [discriminate|].
  apply nth_error_In.
Qed.

Lemma at_index_range s i u : at_index s i = Some u -> 0 <= i < str_length s.
Proof.
  unfold at_index, str_length. destruct (i <? 0) eqn:E; [discriminate|].
  intros H. apply Z.ltb_ge in E.
  assert (Z.to_nat i < List.length s)%nat
    by (apply nth_error_Some; congruence).
  lia.
Qed.

(** Where there is no newline the scan falls through to the start of the
    string and gives it back. *)
Lemma trim_scan_no_LF s i : ~ In LF s -> trim_scan s i = s.
Proof.
  intros Hno. funelim (trim_scan s i).
  - exfalso. apply Hno. eapply at_index_In, is_LF_inv. eassumption.
  - reflexivity.
  - auto.
Qed.

Lemma slice_through_LF a b :
  slice (a ++ LF :: b) 0 (str_length a + 1) = a ++ [LF].
Proof.
  unfold slice, clamp, str_length. rewrite length_app. cbn [List.length].
  assert (H0 : (0 <? 0) = false) by reflexivity.
  assert (H1 : (Z.of_nat (List.length a) + 1 <? 0) = false)
    by (apply Z.ltb_ge; lia).
  rewrite H0, H1.
  replace (Z.to_nat (Z.min 0 _)) with 0%nat by lia.
  replace (Z.to_nat _) with (List.length a + 1)%nat by lia.
  cbn [skipn].
  replace (a ++ LF :: b) with ((a ++ [LF]) ++ b)
    by (rewrite <- app_assoc; reflexivity).
  rewrite firstn_app.
  replace (List.length a + 1 - List.length (a ++ [LF]))%nat with 0%nat
    by (rewrite length_app; cbn; lia).
  rewrite firstn_all2 by (rewrite length_app; cbn; lia).
  cbn. apply app_nil_r.
Qed.

(** From any index at or after the last newline the scan stops on it. *)
Lemma trim_scan_last_LF a b i :
  ~ In LF b ->
  str_length a <= i < str_length (a ++ LF :: b) ->
  trim_scan (a ++ LF :: b) i = a ++ [LF].
Proof.
  intros Hb. remember (a ++ LF :: b) as s eqn:Es.
  funelim (trim_scan s i); intros Hi.
  - (* the newline found is the one after [a] *)
    destruct (Z.eq_dec i (str_length a)) as [->|Hne].
    + apply slice_through_LF.
    + exfalso. apply Hb.
      match goal with H : is_LF _ = true |- _ => apply is_LF_inv in H;
        rewrite at_index_app_right in H by lia;
        replace (LF :: b) with ([LF] ++ b) in H by reflexivity;
        rewrite at_index_app_right in H
          by (change (str_length [LF]) with 1; lia);
        apply at_index_In in H; exact H end.
  - (* the start of the string is reached only when [a] is empty, and then
       the newline is there *)
    exfalso.
    assert (i = str_length a) by (unfold str_length in *; lia). subst i.
    match goal with H : is_LF _ = false |- _ =>
      rewrite at_index_app_right in H by lia;
      rewrite Z.sub_diag in H; cbn in H; discriminate H end.
  - (* one step back *)
    destruct (Z.eq_dec i (str_length a)) as [->|Hne].
    + exfalso.
      match goal with H : is_LF _ = false |- _ =>
        rewrite at_index_app_right in H by lia;
        rewrite Z.sub_diag in H; cbn in H; discriminate H end.
    + match goal with IH : forall a0 b0, _ |- _ =>
        apply (IH a b); [assumption|reflexivity|lia] end.
Qed.

Lemma str_length_app a b : str_length (a ++ b) = str_length a + str_length b.
Proof. unfold str_length. rewrite length_app. lia. Qed.

Lemma trimPartialLines_no_LF s : ~ In LF s -> trimPartialLines s = s.
Proof. intros H. unfold trimPartialLines. now apply trim_scan_no_LF. Qed.

Lemma trimPartialLines_last_LF a b :
  ~ In LF b -> trimPartialLines (a ++ LF :: b) = a ++ [LF].
Proof.
  intros H. unfold trimPartialLines. apply trim_scan_last_LF; [assumption|].
  rewrite str_length_app. unfold str_length. cbn [List.length]. lia.
Qed.

(** A string with a newline splits at its last one. *)
Lemma last_LF_split s :
  In LF s -> exists a b, s = a ++ LF :: b /\ ~ In LF b.
Proof.
  induction s as [|c s IH]; intros Hin; [contradiction|].
  destruct (in_dec Z.eq_dec LF s) as [Hs|Hs].
  - destruct (IH Hs) as (a & b & -> & Hb).
    exists (c :: a), b. split; [reflexivity|assumption].
  - destruct Hin as [->|Hin]; [|contradiction].
    exists [], s. split; [reflexivity|assumption].
Qed.

Lemma ends_with_LF_fixed s : ends_with_LF s -> trimPartialLines s = s.
Proof.
  intros [p ->]. apply (trimPartialLines_last_LF p []). intros [].
Qed.

(** No prefix that ends with a newline reaches beyond the last newline. *)
Lemma prefix_up_to_last_LF a b p :
  ~ In LF b -> prefix p (a ++ LF :: b) -> ends_with_LF p ->
  prefix p (a ++ [LF]).
Proof.
  intros Hb [r Hr] [q ->]. rewrite <- app_assoc in Hr. cbn in Hr.
  apply app_eq_app in Hr. destruct Hr as [l [[Ha Hl]|[Hq Hl]]].
  - destruct l as [|c l]; cbn in Hl.
    + rewrite app_nil_r in Ha. subst q. exists []. now rewrite app_nil_r.
    + injection Hl as Hc Hr. subst a c. exists (l ++ [LF]).
      rewrite <- !app_assoc. reflexivity.
  - destruct l as [|c l]; cbn in Hl.
    + rewrite app_nil_r in Hq. subst q. exists []. now rewrite app_nil_r.
    + injection Hl as Hc Hb'. exfalso. apply Hb. subst b c.
      apply in_or_app. right. now left.
Qed.

(** C6. For every text fragment that contains a newline, [trimPartialLines]
    returns the prefix of the fragment that ends at, and includes, its last
    newline, and no prefix of the fragment that ends with a newline is
    longer; a fragment without a newline, the empty one among them, is
    returned unchanged. *)
Theorem trimPartialLines_longest_prefix s :
  (In LF s ->
   exists a b,
     s = a ++ LF :: b /\ ~ In LF b /\
     trimPartialLines s = a ++ [LF] /\
     forall p, prefix p s -> ends_with_LF p -> prefix p (trimPartialLines s))
  /\ (~ In LF s -> trimPartialLines s = s)
  /\ trimPartialLines [] = [].
Proof.
  split; [|split].
  - intros Hin. destruct (last_LF_split s Hin) as (a & b & -> & Hb).
    exists a, b. rewrite (trimPartialLines_last_LF a b Hb).
    repeat split; try assumption.
    intros p Hp Hlf. now apply prefix_up_to_last_LF with (b := b).
  - apply trimPartialLines_no_LF.
  - reflexivity.
Qed.

(** C7. [trimPartialLines] returns a fragment that ends with a newline
    unchanged, and applying it to its own output changes nothing. *)
Theorem trimPartialLines_idempotent s :
  (ends_with_LF s -> trimPartialLines s = s)
  /\ trimPartialLines (trimPartialLines s) = trimPartialLines s.
Proof.
  split; [apply ends_with_LF_fixed|].
  destruct (in_dec Z.eq_dec LF s) as [Hin|Hno].
  - destruct (last_LF_split s Hin) as (a & b & -> & Hb).
    rewrite (trimPartialLines_last_LF a b Hb).
    apply ends_with_LF_fixed. now exists a.
  - now rewrite !(trimPartialLines_no_LF s Hno).
Qed.

End Scanner.

(** ** The decoder: proofs *)

Section Decoder.

(** A call that is not a streaming one leaves nothing behind for the next
    call: whatever came before it, the next call decodes its input as a new
    decoder would. *)
Lemma decode_after_flush d input stream :
  do_not_flush d = false ->
  decode d input stream = decode new_TextDecoder input stream.
Proof. intros H. unfold decode. rewrite H. reflexivity. Qed.

Lemma decode_sets_flag d input stream :
  do_not_flush (snd (decode d input stream)) = stream.
Proof.
  unfold decode.
  destruct (Utf8.run _ input) as [st1 out1].
  destruct (if stream then _ else _) as [st2 out2].
  destruct (serialize _ _) as [seen s]. reflexivity.
Qed.

(** The call of the consumer's loop, [decoder.decode(read.value)]. *)
Lemma decode_chunk d value :
  do_not_flush d = false ->
  exists d',
    decode d value false = (decode_all value, d') /\ do_not_flush d' = false.
Proof.
  intros H. exists (snd (decode d value false)). split.
  - unfold decode_all. rewrite <- (decode_after_flush d value false H).
    apply surjective_pairing.
  - apply decode_sets_flag.
Qed.

(** The handler over two inputs in a row. *)
Lemma run_app st a b :
  Utf8.run st (a ++ b) =
  let '(st1, out1) := Utf8.run st a in
  let '(st2, out2) := Utf8.run st1 b in
  (st2, out1 ++ out2).
Proof.
  revert st. induction a as [|x a IH]; intros st; cbn [app Utf8.run].
  - destruct (Utf8.run st b). reflexivity.
  - destruct (Utf8.handler st (Utf8.byte_val x)) as [st1 out1].
    rewrite IH. destruct (Utf8.run st1 a) as [st2 out2].
    destruct (Utf8.run st2 b) as [st3 out3].
    now rewrite app_assoc.
Qed.

Lemma serialize_seen out : snd (serialize true out) = Utf8.to_text out.
Proof. destruct out; reflexivity. Qed.

Lemma serialize_app seen x y :
  snd (serialize seen (x ++ y)) =
  snd (serialize seen x) ++ snd (serialize (fst (serialize seen x)) y).
Proof.
  destruct x as [|c r]; [reflexivity|]. cbn [app serialize].
  destruct (negb seen && (c =? Utf8.BOM)); cbn [fst snd];
    rewrite serialize_seen; unfold Utf8.to_text.
  - apply flat_map_app.
  - apply (flat_map_app Utf8.utf16 (c :: r) y).
Qed.

(** A call with [{stream: true}] keeps the incomplete sequence for the next
    call: the texts of the two calls together are the text of the two inputs
    together. This is the decoder whose state persists between chunks; the
    consumer's call passes no such option. *)
Lemma decode_stream_then_flush d a b :
  fst (decode d a true) ++ fst (decode (snd (decode d a true)) b false) =
  fst (decode d (a ++ b) false).
Proof.
  unfold decode. rewrite run_app.
  destruct (Utf8.run _ a) as [st1 out1]. rewrite app_nil_r.
  pose proof (serialize_app (if do_not_flush d then BOM_seen d else false)
                out1) as Happ.
  destruct (serialize _ out1) as [seen1 t1] eqn:E1.
  cbn [fst snd decoder BOM_seen do_not_flush] in *.
  destruct (Utf8.run st1 b) as [st2 out2].
  destruct (Utf8.flush st2) as [st3 out3].
  rewrite <- app_assoc. specialize (Happ (out2 ++ out3)).
  destruct (serialize seen1 _) as [seen2 t2].
  destruct (serialize _ (out1 ++ _)) as [seen3 t3].
  cbn [fst snd] in *. now rewrite Happ.
Qed.

(** Single-byte characters decode to themselves, one code unit each. *)
Lemma byte_val_nonneg b : 0 <= Utf8.byte_val b.
Proof. unfold Utf8.byte_val. lia. Qed.

Lemma lead_ascii b :
  0 <= b < 0x80 -> Utf8.lead b = (Utf8.initial, [b]).
Proof.
  intros Hb. unfold Utf8.lead, Utf8.between.
  assert (H : (0 <=? b) && (b <=? 127) = true).
  { apply andb_true_intro. split; apply Z.leb_le; lia. }
  now rewrite H.
Qed.

Lemma run_ascii value :
  ascii_only value = true ->
  Utf8.run Utf8.initial value = (Utf8.initial, map Utf8.byte_val value).
Proof.
  induction value as [|b value IH]; cbn [ascii_only forallb Utf8.run map];
    [reflexivity|].
  intros H. apply andb_prop in H. destruct H as [Hb Hrest].
  apply Z.ltb_lt in Hb. pose proof (byte_val_nonneg b).
  unfold Utf8.handler. cbn [Utf8.bytes_needed Utf8.initial Z.eqb].
  rewrite lead_ascii by lia. fold (ascii_only value) in Hrest.
  now rewrite (IH Hrest).
Qed.

Lemma to_text_small cs :
  Forall (fun c => c < 0x10000) cs -> Utf8.to_text cs = cs.
Proof.
  induction 1 as [|c cs Hc _ IH]; [reflexivity|].
  unfold Utf8.to_text in *. cbn [flat_map]. rewrite IH.
  unfold Utf8.utf16. apply Z.ltb_lt in Hc. now rewrite Hc.
Qed.

Lemma decode_all_ascii value :
  ascii_only value = true -> decode_all value = map Utf8.byte_val value.
Proof.
  intros H. unfold decode_all, decode.
  cbn [do_not_flush new_TextDecoder]. rewrite (run_ascii value H).
  cbn [Utf8.flush Utf8.bytes_needed Utf8.initial Z.eqb]. rewrite app_nil_r.
  assert (Hsmall : Forall (fun c => c < 0x80) (map Utf8.byte_val value)).
  { apply Forall_forall. intros c Hc. apply in_map_iff in Hc.
    destruct Hc as (b & <- & Hb). unfold ascii_only in H.
    rewrite forallb_forall in H. apply Z.ltb_lt. now apply H. }
  destruct (map Utf8.byte_val value) as [|c cs]; [reflexivity|].
  cbn [serialize negb andb].
  assert (Hc : (c =? Utf8.BOM) = false).
  { apply Z.eqb_neq. inversion Hsmall; subst. unfold Utf8.BOM. lia. }
  rewrite Hc. cbn [fst]. apply to_text_small.
  eapply Forall_impl; [|exact Hsmall]. cbn. intros; lia.
Qed.

(** For a payload of single-byte characters the division into chunks does
    not show in the text. *)
Lemma decoded_ascii chunks :
  forallb ascii_only chunks = true ->
  decoded chunks = decode_all (List.concat chunks).
Proof.
  intros H.
  assert (Hall : ascii_only (List.concat chunks) = true).
  { unfold ascii_only. apply forallb_forall. intros b Hb.
    apply in_concat in Hb. destruct Hb as (v & Hv & Hb).
    rewrite forallb_forall in H. specialize (H v Hv).
    unfold ascii_only in H. rewrite forallb_forall in H. now apply H. }
  rewrite (decode_all_ascii _ Hall), concat_map.
  unfold decoded. rewrite flat_map_concat_map. f_equal.
  apply map_ext_in. intros v Hv. apply decode_all_ascii.
  rewrite forallb_forall in H. now apply H.
Qed.

(** A continuation byte is never below 0x80, so a newline byte always ends
    the sequence under way and is decoded as a newline. *)
Lemma lead_lower_boundary b :
  0x80 <= Utf8.lower_boundary (fst (Utf8.lead b)).
Proof.
  unfold Utf8.lead.
  repeat match goal with
         | |- context [if ?c then _ else _] => destruct c
         end; cbn; lia.
Qed.

Lemma handler_lower_boundary st b :
  0x80 <= Utf8.lower_boundary (fst (Utf8.handler st b)).
Proof.
  unfold Utf8.handler.
  destruct (Utf8.bytes_needed st =? 0); [apply lead_lower_boundary|].
  destruct (negb _).
  - pose proof (lead_lower_boundary b) as H.
    destruct (Utf8.lead b) as [st' out]. exact H.
  - destruct (_ =? _); cbn; lia.
Qed.

Lemma run_lower_boundary input : forall st,
  0x80 <= Utf8.lower_boundary st ->
  0x80 <= Utf8.lower_boundary (fst (Utf8.run st input)).
Proof.
  induction input as [|b input IH]; intros st Hst; cbn [Utf8.run];
    [exact Hst|].
  pose proof (handler_lower_boundary st (Utf8.byte_val b)) as Hh.
  destruct (Utf8.handler st (Utf8.byte_val b)) as [st1 out1].
  specialize (IH st1 Hh). destruct (Utf8.run st1 input) as [st2 out2].
  exact IH.
Qed.

Lemma handler_LF st :
  0x80 <= Utf8.lower_boundary st ->
  exists out, Utf8.handler st 10 = (Utf8.initial, out ++ [10]).
Proof.
  intros Hst. unfold Utf8.handler.
  destruct (Utf8.bytes_needed st =? 0).
  - now exists [].
  - assert (H : Utf8.between (Utf8.lower_boundary st) 10
                  (Utf8.upper_boundary st) = false).
    { unfold Utf8.between. apply andb_false_intro1, Z.leb_gt. lia. }
    rewrite H. now exists [Utf8.REPLACEMENT].
Qed.

Lemma serialize_ends_with_LF seen out :
  ends_with_LF (snd (serialize seen (out ++ [10]))).
Proof.
  assert (Hsnoc : forall cs,
            Utf8.to_text (cs ++ [10]) = Utf8.to_text cs ++ [LF]).
  { intros cs. unfold Utf8.to_text. now rewrite flat_map_app. }
  destruct out as [|c r]; cbn [app serialize].
  - destruct seen; now exists [].
  - destruct (negb seen && (c =? Utf8.BOM)); cbn [snd].
    + exists (Utf8.to_text r). apply Hsnoc.
    + exists (Utf8.to_text (c :: r)). apply (Hsnoc (c :: r)).
Qed.

Lemma decode_all_ends_with_LF bytes :
  ends_with_LF (decode_all (bytes ++ [x0a])).
Proof.
  unfold decode_all, decode. cbn [do_not_flush new_TextDecoder].
  rewrite run_app.
  pose proof (run_lower_boundary bytes Utf8.initial ltac:(cbn; lia)) as Hst.
  destruct (Utf8.run Utf8.initial bytes) as [st1 out1]. cbn [fst] in Hst.
  cbn [Utf8.run]. change (Utf8.byte_val x0a) with 10.
  destruct (handler_LF st1 Hst) as [out ->].
  cbn [Utf8.flush Utf8.bytes_needed Utf8.initial Z.eqb].
  rewrite !app_nil_r, app_assoc.
  pose proof (serialize_ends_with_LF false (out1 ++ out)) as H.
  destruct (serialize false _) as [seen t]. exact H.
Qed.

End Decoder.

(** ** The stream consumer: proofs *)

Lemma byteLength_nonneg value : 0 <= byteLength value.
Proof. unfold byteLength. lia. Qed.

Lemma total_bytes_cons value chunks :
  total_bytes (value :: chunks) = byteLength value + total_bytes chunks.
Proof. reflexivity. Qed.

Lemma total_bytes_nonneg chunks : 0 <= total_bytes chunks.
Proof.
  induction chunks as [|v chunks IH]; [cbn; lia|].
  rewrite total_bytes_cons. pose proof (byteLength_nonneg v). lia.
Qed.

Lemma total_bytes_app xs ys :
  total_bytes (xs ++ ys) = total_bytes xs + total_bytes ys.
Proof.
  induction xs as [|v xs IH]; [reflexivity|].
  cbn [app]. rewrite !total_bytes_cons, IH. lia.
Qed.

Lemma total_bytes_snoc xs value :
  total_bytes (xs ++ [value]) = total_bytes xs + byteLength value.
Proof.
  rewrite total_bytes_app, total_bytes_cons. cbn. lia.
Qed.

Lemma decoded_app xs ys : decoded (xs ++ ys) = decoded xs ++ decoded ys.
Proof. unfold decoded. apply flat_map_app. Qed.

Lemma decoded_snoc xs value :
  decoded (xs ++ [value]) = decoded xs ++ decode_all value.
Proof. rewrite decoded_app. cbn. now rewrite app_nil_r. Qed.


(** ** Chunk boundaries and the decoder *)

Section Boundaries.

(** After a byte the decoder either awaits a continuation byte or is back in
    its initial state. *)
Lemma lead_tidy b :
  Utf8.bytes_needed (fst (Utf8.lead b)) = 0 ->
  fst (Utf8.lead b) = Utf8.initial.
Proof.
  unfold Utf8.lead.
  repeat match goal with
         | |- context [if Utf8.between ?x ?y ?z then _ else _] =>
             destruct (Utf8.between x y z)
         end; cbn; intros H; (reflexivity || discriminate H).
Qed.

Lemma handler_tidy st b :
  Utf8.bytes_needed (fst (Utf8.handler st b)) = 0 ->
  fst (Utf8.handler st b) = Utf8.initial.
Proof.
  unfold Utf8.handler.
  destruct (Utf8.bytes_needed st =? 0) eqn:Hneed; [apply lead_tidy|].
  destruct (negb _).
  - pose proof (lead_tidy b) as H.
    destruct (Utf8.lead b) as [st' out]. exact H.
  - destruct (_ =? Utf8.bytes_needed st); cbn; [reflexivity|].
    intros H. apply Z.eqb_neq in Hneed. contradiction.
Qed.

Lemma run_tidy input : forall st,
  (Utf8.bytes_needed st = 0 -> st = Utf8.initial) ->
  Utf8.bytes_needed (fst (Utf8.run st input)) = 0 ->
  fst (Utf8.run st input) = Utf8.initial.
Proof.
  induction input as [|b input IH]; intros st Hst; cbn [Utf8.run];
    [exact Hst|].
  pose proof (handler_tidy st (Utf8.byte_val b)) as Hh.
  destruct (Utf8.handler st (Utf8.byte_val b)) as [st1 out1].
  specialize (IH st1 Hh). destruct (Utf8.run st1 input) as [st2 out2].
  exact IH.
Qed.

Lemma run_complete value :
  ends_complete value = true ->
  fst (Utf8.run Utf8.initial value) = Utf8.initial.
Proof.
  unfold ends_complete. intros H. apply Z.eqb_eq in H.
  now apply run_tidy.
Qed.

(** The text of a byte sequence, from what the handler emits on it. *)
Lemma decode_all_emitted value :
  decode_all value =
  snd (serialize false
         (snd (Utf8.run Utf8.initial value)
          ++ snd (Utf8.flush (fst (Utf8.run Utf8.initial value))))).
Proof.
  unfold decode_all, decode. cbn [do_not_flush new_TextDecoder].
  destruct (Utf8.run Utf8.initial value) as [st1 out1]. cbn [fst snd].
  destruct (Utf8.flush st1) as [st2 out2]. cbn [fst snd].
  destruct (serialize false (out1 ++ out2)) as [seen t]. reflexivity.
Qed.

Lemma serialize_plain seen out :
  match out with c :: _ => (c =? Utf8.BOM) = false | [] => True end ->
  snd (serialize seen out) = Utf8.to_text out.
Proof.
  destruct out as [|c rest]; [reflexivity|]. cbn [serialize]. intros ->.
  now rewrite andb_false_r.
Qed.

Lemma flush_emits st :
  snd (Utf8.flush st) = [] \/ snd (Utf8.flush st) = [Utf8.REPLACEMENT].
Proof. unfold Utf8.flush. destruct (_ =? 0); [now left|now right]. Qed.

(** Across a boundary that cuts no character and hides no byte order mark,
    the text of two byte sequences together is their two texts together. *)
Lemma decode_all_app a b :
  ends_complete a = true ->
  starts_with_BOM b = false ->
  decode_all (a ++ b) = decode_all a ++ decode_all b.
Proof.
  intros Ha Hb. rewrite !decode_all_emitted, run_app.
  pose proof (run_complete a Ha) as Hst.
  destruct (Utf8.run Utf8.initial a) as [st1 out1]. cbn [fst snd] in *.
  subst st1. unfold starts_with_BOM in Hb.
  destruct (Utf8.run Utf8.initial b) as [st2 out2]. cbn [fst snd] in *.
  change (snd (Utf8.flush Utf8.initial)) with (@nil Utf8.code_point).
  rewrite app_nil_r, <- app_assoc, serialize_app. f_equal.
  assert (Hplain :
    match out2 ++ snd (Utf8.flush st2) with
    | c :: _ => (c =? Utf8.BOM) = false
    | [] => True
    end).
  { destruct out2 as [|c rest]; [|exact Hb]. cbn [app].
    destruct (flush_emits st2) as [-> | ->]; [exact I|reflexivity]. }
  now rewrite !(serialize_plain _ _ Hplain).
Qed.

Lemma starts_with_BOM_app a b :
  ends_complete a = true ->
  starts_with_BOM a = false ->
  starts_with_BOM b = false ->
  starts_with_BOM (a ++ b) = false.
Proof.
  intros Ha Hna Hnb. unfold starts_with_BOM in *. rewrite run_app.
  pose proof (run_complete a Ha) as Hst.
  destruct (Utf8.run Utf8.initial a) as [st1 out1]. cbn [fst snd] in *.
  subst st1.
  destruct (Utf8.run Utf8.initial b) as [st2 out2]. cbn [fst snd] in *.
  destruct out1 as [|c rest]; [exact Hnb|exact Hna].
Qed.

Lemma aligned_cons v w rest :
  aligned (v :: w :: rest) = true ->
  ends_complete v = true /\ starts_with_BOM w = false /\
  aligned (w :: rest) = true.
Proof.
  cbn [aligned]. unfold boundary_ok. intros H.
  apply andb_prop in H. destruct H as [H Hrest].
  apply andb_prop in H. destruct H as [Hv Hw].
  apply negb_true_iff in Hw. now repeat split.
Qed.

Lemma starts_with_BOM_concat rest : forall w,
  aligned (w :: rest) = true ->
  starts_with_BOM w = false ->
  starts_with_BOM (List.concat (w :: rest)) = false.
Proof.
  induction rest as [|x rest IH]; intros w Hal Hw; cbn [List.concat].
  - now rewrite app_nil_r.
  - destruct (aligned_cons w x rest Hal) as (Hcw & Hx & Hrest).
    apply starts_with_BOM_app; try assumption.
    now apply IH.
Qed.

(** When every boundary of a payload is such a one, the texts of its chunks
    together are the text of the payload. *)
Lemma decoded_aligned chunks :
  aligned chunks = true -> decoded chunks = decode_all (List.concat chunks).
Proof.
  induction chunks as [|v rest IH]; intros Hal; [reflexivity|].
  change (decoded (v :: rest)) with (decode_all v ++ decoded rest).
  cbn [List.concat].
  destruct rest as [|w rest].
  - cbn. now rewrite !app_nil_r.
  - destruct (aligned_cons v w rest Hal) as (Hv & Hw & Hrest).
    rewrite (IH Hrest). symmetry. apply decode_all_app; [assumption|].
    now apply starts_with_BOM_concat.
Qed.


End Boundaries.

Section Consumer.

Variable FLUX_RESPONSE_BYTES_LIMIT : Z.

(** Chunks that fit within the cap are taken one after the other: the loop
    comes to what follows them with their text appended and their bytes
    counted. *)
Lemma read_loop_within chunks : forall tail d handed calls csv0 n,
  do_not_flush d = false ->
  n + total_bytes chunks <= FLUX_RESPONSE_BYTES_LIMIT ->
  exists d',
    do_not_flush d' = false /\
    read_loop FLUX_RESPONSE_BYTES_LIMIT d (chunks_then chunks tail)
      handed calls csv0 n =
    read_loop FLUX_RESPONSE_BYTES_LIMIT d' tail (handed ++ chunks) calls
      (csv0 ++ decoded chunks) (n + total_bytes chunks).
Proof.
  induction chunks as [|v chunks IH]; intros tail d handed calls csv0 n Hd Hn.
  - exists d. split; [assumption|]. cbn.
    now rewrite !app_nil_r, Z.add_0_r.
  - rewrite total_bytes_cons in *. cbn [chunks_then read_loop].
    destruct (decode_chunk d v Hd) as (d1 & -> & Hd1).
    pose proof (total_bytes_nonneg chunks).
    assert (Hle : (n + byteLength v >? FLUX_RESPONSE_BYTES_LIMIT) = false)
      by (rewrite Z.gtb_ltb; apply Z.ltb_ge; lia).
    rewrite Hle.
    destruct (IH tail d1 (handed ++ [v]) calls (csv0 ++ decode_all v)
                (n + byteLength v) Hd1 ltac:(lia)) as (d' & Hd' & ->).
    exists d'. split; [assumption|].
    rewrite <- !app_assoc. cbn [app decoded flat_map].
    fold (decoded chunks). f_equal. lia.
Qed.

(** The chunk that takes the count over the cap ends the loop: its text is
    trimmed and appended, and nothing more is read. *)
Lemma read_loop_crossing c rest d handed calls csv0 n :
  do_not_flush d = false ->
  n + byteLength c > FLUX_RESPONSE_BYTES_LIMIT ->
  read_loop FLUX_RESPONSE_BYTES_LIMIT d (Chunk c rest) handed calls csv0 n =
  (Fulfilled {| csv := csv0 ++ trimPartialLines (decode_all c);
                didTruncate := true;
                bytesRead := n + byteLength c |},
   {| body := rest; delivered := handed ++ [c]; cancel_calls := calls |}).
Proof.
  intros Hd Hn. cbn [read_loop].
  destruct (decode_chunk d c Hd) as (d1 & -> & _).
  assert (Hgt : (n + byteLength c >? FLUX_RESPONSE_BYTES_LIMIT) = true)
    by (rewrite Z.gtb_ltb; apply Z.ltb_lt; lia).
  now rewrite Hgt.
Qed.


(** The response whose first chunks fit within the cap and whose next chunk
    crosses it. *)
Lemma processResponse_crossing before c tail :
  total_bytes before <= FLUX_RESPONSE_BYTES_LIMIT ->
  total_bytes before + byteLength c > FLUX_RESPONSE_BYTES_LIMIT ->
  processResponse FLUX_RESPONSE_BYTES_LIMIT
    (chunks_then before (Chunk c tail)) =
  (Fulfilled {| csv := decoded before ++ trimPartialLines (decode_all c);
                didTruncate := true;
                bytesRead := total_bytes before + byteLength c |},
   cancel {| body := tail; delivered := before ++ [c]; cancel_calls := 0 |}).
Proof.
  intros Hb Hc. unfold processResponse, getReader.
  cbn [body delivered cancel_calls].
  destruct (read_loop_within before (Chunk c tail) new_TextDecoder [] 0 [] 0
              eq_refl ltac:(lia)) as (d' & Hd' & ->).
  rewrite (read_loop_crossing c tail d' _ _ _ _ Hd') by lia.
  reflexivity.
Qed.

(** Whatever the body delivers, the loop leaves the count of [cancel] calls
    alone; when it ends with an error, the error is the one of the body, which
    is left errored. *)
Lemma read_loop_exit pending : forall d handed calls csv0 n,
  match read_loop FLUX_RESPONSE_BYTES_LIMIT d pending handed calls csv0 n with
  | (Fulfilled _, reader) => cancel_calls reader = calls
  | (Rejected e, reader) =>
      cancel_calls reader = calls /\ body reader = Errored e
  end.
Proof.
  induction pending as [|e|v rest IH]; intros d handed calls csv0 n;
    cbn [read_loop].
  - reflexivity.
  - split; reflexivity.
  - destruct (decode d v false) as [t d1].
    destruct (n + byteLength v >? FLUX_RESPONSE_BYTES_LIMIT);
      [reflexivity|apply IH].
Qed.

(** The loop invariant on the byte count: it is the size of the chunks handed
    out, and it is within the cap as long as the loop goes on. *)
Lemma read_loop_count pending : forall d handed calls csv0 n result reader,
  0 <= n <= FLUX_RESPONSE_BYTES_LIMIT ->
  n = total_bytes handed ->
  read_loop FLUX_RESPONSE_BYTES_LIMIT d pending handed calls csv0 n =
    (Fulfilled result, reader) ->
  (didTruncate result = false ->
   bytesRead result <= FLUX_RESPONSE_BYTES_LIMIT) /\
  (didTruncate result = true ->
   bytesRead result > FLUX_RESPONSE_BYTES_LIMIT) /\
  0 <= bytesRead result /\
  bytesRead result = total_bytes (delivered reader).
Proof.
  induction pending as [|e|v rest IH];
    intros d handed calls csv0 n result reader Hn Hh; cbn [read_loop].
  - intros [= <- <-]. cbn [didTruncate bytesRead delivered].
    repeat split; intros; (lia || congruence).
  - discriminate.
  - destruct (decode d v false) as [t d1].
    pose proof (byteLength_nonneg v).
    destruct (n + byteLength v >? FLUX_RESPONSE_BYTES_LIMIT) eqn:Hcmp.
    + rewrite Z.gtb_ltb in Hcmp. apply Z.ltb_lt in Hcmp.
      intros [= <- <-]. cbn [didTruncate bytesRead delivered].
      rewrite total_bytes_snoc. repeat split; intros; (lia || congruence).
    + rewrite Z.gtb_ltb in Hcmp. apply Z.ltb_ge in Hcmp.
      apply IH; [lia|]. rewrite total_bytes_snoc. lia.
Qed.

Lemma trimPartialLines_prefix s : prefix (trimPartialLines s) s.
Proof.
  destruct (in_dec Z.eq_dec LF s) as [Hin|Hno].
  - destruct (last_LF_split s Hin) as (a & b & -> & Hb).
    rewrite (trimPartialLines_last_LF a b Hb). exists b.
    now rewrite <- app_assoc.
  - rewrite (trimPartialLines_no_LF s Hno). exists []. now rewrite app_nil_r.
Qed.

Lemma trimPartialLines_ends_with_LF s :
  In LF s -> ends_with_LF (trimPartialLines s).
Proof.
  intros Hin. destruct (last_LF_split s Hin) as (a & b & -> & Hb).
  rewrite (trimPartialLines_last_LF a b Hb). now exists a.
Qed.


(** C3 (amended). When the loop ends on the end of the stream or on the cap,
    the consumer releases the byte source once, after the loop. When a read
    fails, by a transport error or by cancellation, the error goes to the
    caller as it is and the consumer does not release the byte source, which
    stays errored. The decoder raises no error. *)
Theorem release_on_exit response :
  match processResponse FLUX_RESPONSE_BYTES_LIMIT response with
  | (Fulfilled _, reader) => cancel_calls reader = 1%nat
  | (Rejected e, reader) =>
      cancel_calls reader = 0%nat /\ body reader = Errored e
  end.
Proof.
  unfold processResponse, getReader. cbn [body delivered cancel_calls].
  pose proof (read_loop_exit response new_TextDecoder [] 0 [] 0) as H.
  destruct (read_loop _ _ _ _ _ _ _) as [[result|e] reader].
  - cbn. now rewrite H.
  - exact H.
Qed.

(** C8. For a cap that is not negative, every result of [processResponse]
    has a count of bytes within the cap when its truncation flag is false and
    above the cap when the flag is true; the count is never negative and is
    the size of all the chunks that the reader handed out, the one that was
    trimmed counted in full. *)
Theorem result_invariant response result reader :
  0 <= FLUX_RESPONSE_BYTES_LIMIT ->
  processResponse FLUX_RESPONSE_BYTES_LIMIT response
    = (Fulfilled result, reader) ->
  (didTruncate result = false ->
   bytesRead result <= FLUX_RESPONSE_BYTES_LIMIT) /\
  (didTruncate result = true ->
   bytesRead result > FLUX_RESPONSE_BYTES_LIMIT) /\
  0 <= bytesRead result /\
  bytesRead result = total_bytes (delivered reader).
Proof.
  intros Hcap. unfold processResponse, getReader.
  cbn [body delivered cancel_calls].
  destruct (read_loop _ _ _ _ _ _ _) as [[r|e] rd] eqn:Hloop;
    [|discriminate].
  intros [= <- <-]. cbn [cancel delivered].
  eapply read_loop_count; [| |exact Hloop]; [lia|reflexivity].
Qed.

End Consumer.

(** The loop written with [read]: one [await reader.read()], then the test
    of the loop and its body. *)
Lemma read_loop_read FLUX_RESPONSE_BYTES_LIMIT d reader csv0 n :
  read_loop FLUX_RESPONSE_BYTES_LIMIT d
    (body reader) (delivered reader) (cancel_calls reader) csv0 n =
  match read reader with
  | (Rejected e, reader') => (Rejected e, reader')
  | (Fulfilled done, reader') =>
      (Fulfilled {| csv := csv0; didTruncate := false; bytesRead := n |},
       reader')
  | (Fulfilled (value_of value), reader') =>
      let '(text, d') := decode d value false in
      let n' := n + byteLength value in
      if n' >? FLUX_RESPONSE_BYTES_LIMIT then
        (Fulfilled {| csv := csv0 ++ trimPartialLines text;
                      didTruncate := true;
                      bytesRead := n' |}, reader')
      else
        read_loop FLUX_RESPONSE_BYTES_LIMIT d'
          (body reader') (delivered reader') (cancel_calls reader')
          (csv0 ++ text) n'
  end.
Proof.
  destruct reader as [[|e|v rest] handed calls]; reflexivity.
Qed.

(** ** The request launcher: proofs *)

Lemma abort_body_chunks chunks tail :
  abort_body (List.length chunks) (chunks_then chunks tail) =
  chunks_then chunks (Errored AbortError).
Proof.
  induction chunks as [|v chunks IH]; cbn; [reflexivity|].
  now rewrite IH.
Qed.

(** A read rejected while the consumer is still within the cap rejects the
    consumer with the same error. *)
Lemma processResponse_rejected FLUX_RESPONSE_BYTES_LIMIT chunks e :
  total_bytes chunks <= FLUX_RESPONSE_BYTES_LIMIT ->
  fst (processResponse FLUX_RESPONSE_BYTES_LIMIT
         (chunks_then chunks (Errored e))) = Rejected e.
Proof.
  intros Hle. unfold processResponse, getReader.
  cbn [body delivered cancel_calls].
  destruct (read_loop_within FLUX_RESPONSE_BYTES_LIMIT chunks (Errored e)
              new_TextDecoder [] 0 [] 0 eq_refl ltac:(lia)) as (d' & _ & ->).
  reflexivity.
Qed.

(** C9. When the caller cancels while the transfer is waiting, for the
    response or for a chunk, before any chunk or after some of them, the
    promise of the handle is rejected with a [CancellationError]: not
    fulfilled with the text read so far, and not rejected with the error that
    the network was about to deliver. *)
Theorem cancellation_settles FLUX_RESPONSE_BYTES_LIMIT network m :
  in_flight FLUX_RESPONSE_BYTES_LIMIT network m ->
  runQuery FLUX_RESPONSE_BYTES_LIMIT network (Some m)
    = Rejected CancellationError.
Proof.
  destruct m as [|k]; cbn [in_flight].
  - intros _. reflexivity.
  - intros (chunks & tail & -> & <- & Hle).
    unfold runQuery, fetch, promise.
    rewrite abort_body_chunks, processResponse_rejected by assumption.
    reflexivity.
Qed.

(** ** The scenarios *)


(** C4 (amended). The payload of three records in one chunk, with the cap at
    8: the count reaches 12, above 8, on that chunk; the chunk ends with a
    newline, so the scanner trims nothing from it; the result is the whole
    text, flagged as truncated, with 12 bytes read. *)
Theorem scenario_B :
  byteLength three_records = 12 /\
  trimPartialLines (decode_all three_records) = decode_all three_records /\
  fst (processResponse 8 (payload [three_records])) =
  Fulfilled {| csv := [97; 44; 98; 10; 99; 44; 100; 10; 101; 44; 102; 10];
               didTruncate := true;
               bytesRead := 12 |}.
Proof. repeat split; vm_compute; reflexivity. Qed.

(** Scenario A of the specification: the same payload with the cap at 100. *)
Example scenario_A :
  fst (processResponse 100 (payload [three_records])) =
  Fulfilled {| csv := [97; 44; 98; 10; 99; 44; 100; 10; 101; 44; 102; 10];
               didTruncate := false;
               bytesRead := 12 |}.
Proof. vm_compute. reflexivity. Qed.

(** Scenario C of the specification: no newline in the chunk that crosses the
    cap, which is kept whole. *)
Example scenario_C :
  fst (processResponse 1 (payload [[x61; x62; x63]])) =
  Fulfilled {| csv := [97; 98; 99]; didTruncate := true; bytesRead := 3 |}.
Proof. vm_compute. reflexivity. Qed.

(** C5 (the defect). The character U+00E9 is the two bytes C3 A9. Delivered
    in two chunks of one byte, each byte is decoded on its own, as U+FFFD:
    the text returned is not the text of the two bytes together. *)
Theorem split_character_is_replaced :
  fst (processResponse 100 (payload [[xc3]; [xa9]])) =
  Fulfilled {| csv := [0xFFFD; 0xFFFD]; didTruncate := false; bytesRead := 2 |}
  /\ decode_all ([xc3] ++ [xa9]) = [0xE9].
Proof. split; vm_compute; reflexivity. Qed.

(** C2 (the defect). Two payloads within the cap whose text is not the
    decoded text of the payload. The character U+00E9 in two chunks of one
    byte comes out as U+FFFD twice; the byte order mark at the head of a
    second chunk, which is a character of the text there, is dropped. The
    flag and the count are as the claim has them. The cause is the one of
    C5: every chunk is decoded by a call that starts the decoder afresh. *)
Theorem within_cap_text_differs :
  (total_bytes [[xc3]; [xa9]] <= 100 /\
   fst (processResponse 100 (payload [[xc3]; [xa9]])) =
   Fulfilled {| csv := [0xFFFD; 0xFFFD];
                didTruncate := false;
                bytesRead := 2 |} /\
   decode_all (List.concat [[xc3]; [xa9]]) = [0xE9]) /\
  (total_bytes [[x61]; [xef; xbb; xbf; x62]] <= 100 /\
   fst (processResponse 100 (payload [[x61]; [xef; xbb; xbf; x62]])) =
   Fulfilled {| csv := [97; 98]; didTruncate := false; bytesRead := 5 |} /\
   decode_all (List.concat [[x61]; [xef; xbb; xbf; x62]]) = [97; 0xFEFF; 98]).
Proof.
  split; (split; [vm_compute; discriminate|]);
    split; vm_compute; reflexivity.
Qed.

(** C10 (the defect). The cap at 3; the first chunk ends inside the
    character U+00E9 and the second, on which the cap is crossed, ends with
    a newline. Nothing is trimmed and the flag is true, as the claim has it,
    but the text is not the decoded text of the payload received: the
    character comes out as U+FFFD twice. The cause is the one of C5. *)
Theorem crossing_chunk_text_differs :
  total_bytes [[x61; xc3]] <= 3 /\
  total_bytes [[x61; xc3]] + byteLength [xa9; x62; x0a] > 3 /\
  ends_with_LF (decode_all [xa9; x62; x0a]) /\
  processResponse 3 (payload [[x61; xc3]; [xa9; x62; x0a]]) =
  (Fulfilled {| csv := [97; 0xFFFD; 0xFFFD; 98; 10];
                didTruncate := true;
                bytesRead := 5 |},
   {| body := Closed;
      delivered := [[x61; xc3]; [xa9; x62; x0a]];
      cancel_calls := 1 |}) /\
  decode_all (List.concat [[x61; xc3]; [xa9; x62; x0a]]) = [97; 0xE9; 98; 10].
Proof.
  split; [vm_compute; discriminate|]. split; [reflexivity|].
  split; [exists [0xFFFD; 98]; reflexivity|].
  split; vm_compute; reflexivity.
Qed.

(** ** The theorems at concrete inputs *)



(** A body that fails after its first chunk: the consumer is rejected with
    the error of the body and has not released the body. *)
Lemma error_exit_without_release :
  let run :=
    processResponse 100
      (Chunk [x61; x2c; x62; x0a] (Errored {| name := "NetworkError" |})) in
  fst run = Rejected {| name := "NetworkError" |} /\
  cancel_calls (snd run) <> 1%nat.
Proof. split; vm_compute; [reflexivity|discriminate]. Qed.

(** Scenario B as the specification gives it does not hold: the text is not
    cut after the second record. *)
Lemma scenario_B_refuted :
  fst (processResponse 8 (payload [three_records])) <>
  Fulfilled {| csv := [97; 44; 98; 10; 99; 44; 100; 10];
               didTruncate := true;
               bytesRead := 12 |}.
Proof. vm_compute. discriminate. Qed.

Lemma result_invariant_witness :
  0 <= 8 /\
  processResponse 8 (payload [three_records]) =
    (Fulfilled {| csv := decoded [three_records];
                  didTruncate := true;
                  bytesRead := 12 |},
     {| body := Closed; delivered := [three_records]; cancel_calls := 1 |}) /\
  (12 > 8 /\ 12 = total_bytes [three_records]).
Proof.
  assert (H0 : 0 <= 8) by lia.
  assert (Hrun :
    processResponse 8 (payload [three_records]) =
    (Fulfilled {| csv := decoded [three_records];
                  didTruncate := true;
                  bytesRead := 12 |},
     {| body := Closed; delivered := [three_records]; cancel_calls := 1 |}))
    by (vm_compute; reflexivity).
  split; [exact H0|]. split; [exact Hrun|].
  destruct (result_invariant 8 _ _ _ H0 Hrun) as (_ & Htrue & _ & Hcount).
  split; [exact (Htrue eq_refl)|exact Hcount].
Defined.

(** Scenario D of the specification: the first chunk is the record [a,b],
    and the caller cancels during the wait for the second chunk. *)
Lemma cancellation_settles_witness :
  in_flight 100
    (Response (payload [[x61; x2c; x62; x0a]; [x63; x2c; x64; x0a]]))
    (AwaitingRead 1) /\
  runQuery 100
    (Response (payload [[x61; x2c; x62; x0a]; [x63; x2c; x64; x0a]]))
    (Some (AwaitingRead 1)) = Rejected CancellationError.
Proof.
  assert (H : in_flight 100
    (Response (payload [[x61; x2c; x62; x0a]; [x63; x2c; x64; x0a]]))
    (AwaitingRead 1)).
  { exists [[x61; x2c; x62; x0a]], (payload [[x63; x2c; x64; x0a]]).
    split; [reflexivity|]. split; [reflexivity|].
    vm_compute. discriminate. }
  split; [exact H|]. exact (cancellation_settles 100 _ _ H).
Defined.


(** ** Further properties of the scanner *)

Section ScannerMore.

Implicit Types (s r : text).

(** X1. What the scanner removes holds no newline: every complete line of the
    fragment is kept, and only the partial line after the last newline can
    go. *)
Theorem trimPartialLines_keeps_lines s :
  exists r, s = trimPartialLines s ++ r /\ ~ In LF r.
Proof.
  destruct (in_dec Z.eq_dec LF s) as [Hin|Hno].
  - destruct (last_LF_split s Hin) as (a & b & -> & Hb).
    exists b. rewrite (trimPartialLines_last_LF a b Hb).
    split; [now rewrite <- app_assoc|assumption].
  - exists []. rewrite (trimPartialLines_no_LF s Hno).
    split; [now rewrite app_nil_r|intros []].
Qed.

(** X2. The scanner leaves a fragment as it is exactly when the fragment holds
    no newline or ends with one. *)
Theorem trimPartialLines_fixed_iff s :
  trimPartialLines s = s <-> ~ In LF s \/ ends_with_LF s.
Proof.
  split.
  - intros Hfix. destruct (in_dec Z.eq_dec LF s) as [Hin|Hno];
      [right|now left].
    rewrite <- Hfix. now apply trimPartialLines_ends_with_LF.
  - intros [Hno|Hlf].
    + now apply trimPartialLines_no_LF.
    + now apply ends_with_LF_fixed.
Qed.

End ScannerMore.

(** ** Further properties of the decoder *)

Section DecoderSize.

Lemma str_length_nonneg s : 0 <= str_length s.
Proof. unfold str_length. lia. Qed.

Lemma to_text_app xs ys :
  Utf8.to_text (xs ++ ys) = Utf8.to_text xs ++ Utf8.to_text ys.
Proof. unfold Utf8.to_text. apply flat_map_app. Qed.

Lemma utf16_size c : 1 <= str_length (Utf8.utf16 c) <= 2.
Proof. unfold Utf8.utf16. destruct (c <? 65536); cbn; lia. Qed.

(** A first byte costs at most the byte itself. *)
Lemma lead_size b :
  0 <= Utf8.bytes_seen (fst (Utf8.lead b)) /\
  str_length (Utf8.to_text (snd (Utf8.lead b)))
    + pending_bytes (fst (Utf8.lead b)) <= 1.
Proof.
  unfold Utf8.lead.
  destruct (Utf8.between 0 b 127) eqn:Hascii.
  - unfold Utf8.between in Hascii. apply andb_prop in Hascii.
    destruct Hascii as [_ Hhi]. apply Z.leb_le in Hhi.
    cbn [fst snd Utf8.to_text flat_map]. unfold Utf8.utf16.
    assert (Hlt : (b <? 65536) = true) by (apply Z.ltb_lt; lia).
    rewrite Hlt. cbn. lia.
  - repeat match goal with
           | |- context [if Utf8.between ?x ?y ?z then _ else _] =>
               destruct (Utf8.between x y z)
           end; cbn; lia.
Qed.

(** Every byte pays for what the handler emits on it: code units emitted and
    bytes held back never exceed the bytes taken in. *)
Lemma handler_size st b :
  0 <= Utf8.bytes_seen st ->
  0 <= Utf8.bytes_seen (fst (Utf8.handler st b)) /\
  str_length (Utf8.to_text (snd (Utf8.handler st b)))
    + pending_bytes (fst (Utf8.handler st b)) <= pending_bytes st + 1.
Proof.
  intros Hseen. pose proof (lead_size b) as [Hl1 Hl2].
  unfold Utf8.handler, pending_bytes at 2.
  destruct (Utf8.bytes_needed st =? 0) eqn:Hneed; [split; [assumption|lia]|].
  destruct (negb _).
  - destruct (Utf8.lead b) as [st' out]. cbn [fst snd] in *.
    split; [assumption|].
    change (Utf8.REPLACEMENT :: out) with ([Utf8.REPLACEMENT] ++ out).
    rewrite to_text_app, str_length_app.
    change (str_length (Utf8.to_text [Utf8.REPLACEMENT])) with 1. lia.
  - destruct (Utf8.bytes_seen st + 1 =? Utf8.bytes_needed st) eqn:Hdone;
      cbn [fst snd].
    + split; [cbn; lia|].
      cbn [Utf8.to_text flat_map]. rewrite app_nil_r.
      pose proof (utf16_size
        (Z.lor (Z.shiftl (Utf8.cp st) 6) (Z.land b 63))) as Hu.
      change (pending_bytes Utf8.initial) with 0. lia.
    + split; [cbn; lia|].
      unfold pending_bytes.
      cbn [Utf8.bytes_needed Utf8.bytes_seen Utf8.to_text flat_map].
      rewrite Hneed. change (str_length []) with 0. lia.
Qed.

Lemma run_size input : forall st,
  0 <= Utf8.bytes_seen st ->
  0 <= Utf8.bytes_seen (fst (Utf8.run st input)) /\
  str_length (Utf8.to_text (snd (Utf8.run st input)))
    + pending_bytes (fst (Utf8.run st input))
  <= pending_bytes st + byteLength input.
Proof.
  induction input as [|b input IH]; intros st Hseen; cbn [Utf8.run].
  - cbn [fst snd]. split; [assumption|].
    change (byteLength []) with 0. change (str_length _) with 0. lia.
  - pose proof (handler_size st (Utf8.byte_val b) Hseen) as [Hh1 Hh2].
    destruct (Utf8.handler st (Utf8.byte_val b)) as [st1 out1].
    cbn [fst snd] in *.
    specialize (IH st1 Hh1). destruct (Utf8.run st1 input) as [st2 out2].
    cbn [fst snd] in *. destruct IH as [IH1 IH2]. split; [assumption|].
    rewrite to_text_app, str_length_app.
    unfold byteLength in *. cbn [List.length]. lia.
Qed.

Lemma flush_size st :
  0 <= Utf8.bytes_seen st ->
  str_length (Utf8.to_text (snd (Utf8.flush st))) <= pending_bytes st.
Proof.
  intros Hseen. unfold Utf8.flush, pending_bytes.
  destruct (Utf8.bytes_needed st =? 0); cbn; lia.
Qed.

Lemma serialize_size seen out :
  str_length (snd (serialize seen out)) <= str_length (Utf8.to_text out).
Proof.
  destruct out as [|c rest]; cbn [serialize]; [cbn; lia|].
  destruct (negb seen && (c =? Utf8.BOM)); cbn [snd]; [|lia].
  change (c :: rest) with ([c] ++ rest).
  rewrite to_text_app, str_length_app.
  pose proof (str_length_nonneg (Utf8.to_text [c])). lia.
Qed.

(** The text of a chunk has at most as many code units as the chunk has
    bytes. *)
Lemma decode_all_size value : str_length (decode_all value) <= byteLength value.
Proof.
  unfold decode_all, decode. cbn [do_not_flush new_TextDecoder].
  pose proof (run_size value Utf8.initial ltac:(cbn; lia)) as [Hr1 Hr2].
  destruct (Utf8.run Utf8.initial value) as [st1 out1]. cbn [fst snd] in *.
  pose proof (flush_size st1 Hr1) as Hf.
  destruct (Utf8.flush st1) as [st2 out2]. cbn [fst snd] in *.
  pose proof (serialize_size false (out1 ++ out2)) as Hs.
  destruct (serialize false (out1 ++ out2)) as [seen t]. cbn [fst snd] in *.
  rewrite to_text_app, str_length_app in Hs.
  change (pending_bytes Utf8.initial) with 0 in Hr2. lia.
Qed.

Lemma decoded_size chunks : str_length (decoded chunks) <= total_bytes chunks.
Proof.
  induction chunks as [|v chunks IH]; [cbn; lia|].
  change (decoded (v :: chunks)) with (decode_all v ++ decoded chunks).
  rewrite str_length_app, total_bytes_cons.
  pose proof (decode_all_size v). lia.
Qed.

End DecoderSize.

(** ** Further properties of the stream consumer *)

Section ConsumerMore.

Variable FLUX_RESPONSE_BYTES_LIMIT : Z.

Lemma prefix_size p s : prefix p s -> str_length p <= str_length s.
Proof.
  intros [r ->]. rewrite str_length_app.
  pose proof (str_length_nonneg r). lia.
Qed.

(** The loop on any body, when it ends with a result: where the text and the
    count stand with respect to the chunks handed out. *)
Lemma read_loop_text pending :
  forall d handed calls csv0 n result reader,
  do_not_flush d = false ->
  csv0 = decoded handed ->
  n = total_bytes handed ->
  (handed = [] \/ n <= FLUX_RESPONSE_BYTES_LIMIT) ->
  read_loop FLUX_RESPONSE_BYTES_LIMIT d pending handed calls csv0 n =
    (Fulfilled result, reader) ->
  bytesRead result = total_bytes (delivered reader) /\
  (didTruncate result = false ->
   csv result = decoded (delivered reader) /\ body reader = Closed) /\
  (didTruncate result = true ->
   exists before c,
     delivered reader = before ++ [c] /\
     csv result = decoded before ++ trimPartialLines (decode_all c) /\
     (before = [] \/ total_bytes before <= FLUX_RESPONSE_BYTES_LIMIT) /\
     total_bytes before + byteLength c > FLUX_RESPONSE_BYTES_LIMIT).
Proof.
  induction pending as [|e|v rest IH];
    intros d handed calls csv0 n result reader Hd Hcsv Hn Hcap;
    cbn [read_loop].
  - intros [= <- <-]. cbn [csv didTruncate bytesRead delivered body].
    repeat split; try assumption. intros [=].
  - intros [=].
  - destruct (decode_chunk d v Hd) as (d1 & -> & Hd1).
    destruct (n + byteLength v >? FLUX_RESPONSE_BYTES_LIMIT) eqn:Hcmp;
      rewrite Z.gtb_ltb in Hcmp.
    + apply Z.ltb_lt in Hcmp. intros [= <- <-].
      cbn [csv didTruncate bytesRead delivered body].
      rewrite total_bytes_snoc.
      split; [lia|]. split; [intros [=]|].
      intros _. exists handed, v. subst csv0 n.
      repeat split; try assumption. lia.
    + apply Z.ltb_ge in Hcmp.
      apply IH; try assumption.
      * subst csv0. now rewrite decoded_snoc.
      * rewrite total_bytes_snoc. lia.
      * right. lia.
Qed.

Lemma processResponse_text response result reader :
  processResponse FLUX_RESPONSE_BYTES_LIMIT response
    = (Fulfilled result, reader) ->
  bytesRead result = total_bytes (delivered reader) /\
  (didTruncate result = false ->
   csv result = decoded (delivered reader)) /\
  (didTruncate result = true ->
   exists before c,
     delivered reader = before ++ [c] /\
     csv result = decoded before ++ trimPartialLines (decode_all c) /\
     (before = [] \/ total_bytes before <= FLUX_RESPONSE_BYTES_LIMIT) /\
     total_bytes before + byteLength c > FLUX_RESPONSE_BYTES_LIMIT).
Proof.
  unfold processResponse, getReader. cbn [body delivered cancel_calls].
  destruct (read_loop _ _ _ _ _ _ _) as [[r|e] rd] eqn:Hloop; [|intros [=]].
  intros [= <- <-]. cbn [cancel delivered].
  destruct (read_loop_text response new_TextDecoder [] 0 [] 0 r rd
              eq_refl eq_refl eq_refl (or_introl eq_refl) Hloop)
    as (Hbytes & Hfalse & Htrue).
  repeat split; try assumption. intros H. now apply Hfalse.
Qed.

(** X3. Whatever the body does, a result holds a prefix of the decoded text of
    the chunks that the reader handed out, and the whole of it when the
    result is not flagged as truncated: the consumer drops text only at the
    end, and only under the flag. *)
Theorem result_text_is_prefix response result reader :
  processResponse FLUX_RESPONSE_BYTES_LIMIT response
    = (Fulfilled result, reader) ->
  prefix (csv result) (decoded (delivered reader)) /\
  (didTruncate result = false -> csv result = decoded (delivered reader)).
Proof.
  intros Hrun.
  destruct (processResponse_text response result reader Hrun)
    as (_ & Hfalse & Htrue).
  split; [|assumption].
  destruct (didTruncate result) eqn:Hflag.
  - destruct (Htrue eq_refl) as (before & c & -> & -> & _).
    rewrite decoded_snoc.
    destruct (trimPartialLines_prefix (decode_all c)) as [r Hr].
    exists r. rewrite Hr at 1. now rewrite <- app_assoc.
  - rewrite (Hfalse eq_refl). exists []. now rewrite app_nil_r.
Qed.

(** X4. The text of a result never has more code units than the bytes that were
    read. *)
Theorem result_text_within_bytes response result reader :
  processResponse FLUX_RESPONSE_BYTES_LIMIT response
    = (Fulfilled result, reader) ->
  str_length (csv result) <= bytesRead result.
Proof.
  intros Hrun.
  destruct (processResponse_text response result reader Hrun)
    as (Hbytes & Hfalse & Htrue).
  rewrite Hbytes.
  pose proof (decoded_size (delivered reader)) as Hsize.
  destruct (didTruncate result) eqn:Hflag.
  - destruct (Htrue eq_refl) as (before & c & Hd & -> & _).
    rewrite Hd in *. rewrite decoded_snoc in Hsize.
    rewrite str_length_app in *.
    pose proof (prefix_size _ _ (trimPartialLines_prefix (decode_all c))).
    lia.
  - rewrite (Hfalse eq_refl). exact Hsize.
Qed.

(** X5. The cap is overshot by less than one chunk: a truncated result has read
    the chunks that fit within the cap and one more, the one on which the
    cap was crossed, so the bytes read are at most the cap plus the size of
    the last chunk handed out. *)
Theorem overshoot_within_one_chunk response result reader :
  0 <= FLUX_RESPONSE_BYTES_LIMIT ->
  processResponse FLUX_RESPONSE_BYTES_LIMIT response
    = (Fulfilled result, reader) ->
  didTruncate result = true ->
  exists before c,
    delivered reader = before ++ [c] /\
    total_bytes before <= FLUX_RESPONSE_BYTES_LIMIT /\
    bytesRead result = total_bytes before + byteLength c /\
    bytesRead result <= FLUX_RESPONSE_BYTES_LIMIT + byteLength c.
Proof.
  intros Hcap Hrun Hflag.
  destruct (processResponse_text response result reader Hrun)
    as (Hbytes & _ & Htrue).
  destruct (Htrue Hflag) as (before & c & Hd & _ & Hfit & _).
  exists before, c. rewrite Hbytes, Hd, total_bytes_snoc.
  assert (total_bytes before <= FLUX_RESPONSE_BYTES_LIMIT)
    by (destruct Hfit as [->|]; [cbn; lia|assumption]).
  repeat split; (assumption || lia).
Qed.

(** X6. Once the cap is crossed nothing more is read: what the body holds after
    the crossing chunk, be it more chunks or an error, has no part in the
    result, and the reader has handed out the chunks up to the crossing one
    and no other. *)
Theorem nothing_read_after_crossing before c tail tail' :
  total_bytes before <= FLUX_RESPONSE_BYTES_LIMIT ->
  total_bytes before + byteLength c > FLUX_RESPONSE_BYTES_LIMIT ->
  fst (processResponse FLUX_RESPONSE_BYTES_LIMIT
         (chunks_then before (Chunk c tail))) =
  fst (processResponse FLUX_RESPONSE_BYTES_LIMIT
         (chunks_then before (Chunk c tail'))) /\
  delivered (snd (processResponse FLUX_RESPONSE_BYTES_LIMIT
                    (chunks_then before (Chunk c tail)))) = before ++ [c].
Proof.
  intros Hb Hc.
  rewrite !(processResponse_crossing FLUX_RESPONSE_BYTES_LIMIT before c)
    by assumption.
  split; reflexivity.
Qed.

Lemma processResponse_payload_within chunks :
  total_bytes chunks <= FLUX_RESPONSE_BYTES_LIMIT ->
  processResponse FLUX_RESPONSE_BYTES_LIMIT (payload chunks) =
  (Fulfilled {| csv := decoded chunks;
                didTruncate := false;
                bytesRead := total_bytes chunks |},
   cancel {| body := Closed; delivered := chunks; cancel_calls := 0 |}).
Proof.
  intros Hle. unfold processResponse, getReader, payload.
  cbn [body delivered cancel_calls].
  destruct (read_loop_within FLUX_RESPONSE_BYTES_LIMIT chunks Closed
              new_TextDecoder [] 0 [] 0 eq_refl ltac:(lia))
    as (d' & _ & ->).
  reflexivity.
Qed.

(** X7. A payload of single-byte characters within the cap comes out as its
    bytes, one code unit for each, however it is divided into chunks. *)
Theorem single_byte_payload_chunking chunks :
  forallb ascii_only chunks = true ->
  total_bytes chunks <= FLUX_RESPONSE_BYTES_LIMIT ->
  fst (processResponse FLUX_RESPONSE_BYTES_LIMIT (payload chunks)) =
  Fulfilled {| csv := map Utf8.byte_val (List.concat chunks);
               didTruncate := false;
               bytesRead := byteLength (List.concat chunks) |}.
Proof.
  intros Hascii Hle.
  rewrite (processResponse_payload_within chunks Hle). cbn [fst].
  rewrite (decoded_ascii chunks Hascii).
  rewrite decode_all_ascii.
  - f_equal. f_equal. clear. induction chunks as [|v chunks IH];
      [reflexivity|].
    rewrite total_bytes_cons, IH. cbn [List.concat].
    unfold byteLength. rewrite length_app. lia.
  - unfold ascii_only. apply forallb_forall. intros b Hb.
    apply in_concat in Hb. destruct Hb as (v & Hv & Hb).
    rewrite forallb_forall in Hascii. specialize (Hascii v Hv).
    unfold ascii_only in Hascii. rewrite forallb_forall in Hascii.
    now apply Hascii.
Qed.

(** X18. A payload within the cap of which no chunk boundary cuts a
    character or hides a byte order mark comes out in full: the text is the
    decoded text of the bytes of the payload put together, the flag is
    false and the count is the size of the payload. *)
Theorem aligned_payload_within_cap chunks :
  aligned chunks = true ->
  total_bytes chunks <= FLUX_RESPONSE_BYTES_LIMIT ->
  fst (processResponse FLUX_RESPONSE_BYTES_LIMIT (payload chunks)) =
  Fulfilled {| csv := decode_all (List.concat chunks);
               didTruncate := false;
               bytesRead := total_bytes chunks |}.
Proof.
  intros Hal Hle.
  rewrite (processResponse_payload_within chunks Hle). cbn [fst].
  now rewrite (decoded_aligned chunks Hal).
Qed.

(** X19. When the cap is crossed on a chunk whose text ends with a newline,
    and no boundary between the chunks read cuts a character or hides a
    byte order mark, the text of the result is the decoded text of all the
    bytes read put together: nothing is trimmed, under the flag. *)
Theorem aligned_crossing_chunk_ending_with_LF before c tail :
  total_bytes before <= FLUX_RESPONSE_BYTES_LIMIT ->
  total_bytes before + byteLength c > FLUX_RESPONSE_BYTES_LIMIT ->
  ends_with_LF (decode_all c) ->
  aligned (before ++ [c]) = true ->
  fst (processResponse FLUX_RESPONSE_BYTES_LIMIT
         (chunks_then before (Chunk c tail))) =
  Fulfilled {| csv := decode_all (List.concat (before ++ [c]));
               didTruncate := true;
               bytesRead := total_bytes (before ++ [c]) |}.
Proof.
  intros Hb Hc Hlf Hal.
  rewrite (processResponse_crossing FLUX_RESPONSE_BYTES_LIMIT before c)
    by assumption.
  cbn [fst].
  now rewrite (ends_with_LF_fixed _ Hlf), <- (decoded_aligned _ Hal),
    decoded_snoc, total_bytes_snoc.
Qed.

End ConsumerMore.

Section ConsumerBytes.

Variable FLUX_RESPONSE_BYTES_LIMIT : Z.

(** X8. A chunk whose last byte is the newline byte decodes to a text that ends
    with a newline, whatever bytes come before it, malformed ones included.
    When the cap is crossed on such a chunk the text of the result is the
    decoded text of all the chunks read: nothing is trimmed. *)
Theorem crossing_chunk_ending_with_newline_byte before bytes tail :
  total_bytes before <= FLUX_RESPONSE_BYTES_LIMIT ->
  total_bytes before + byteLength (bytes ++ [x0a])
    > FLUX_RESPONSE_BYTES_LIMIT ->
  ends_with_LF (decode_all (bytes ++ [x0a])) /\
  fst (processResponse FLUX_RESPONSE_BYTES_LIMIT
         (chunks_then before (Chunk (bytes ++ [x0a]) tail))) =
  Fulfilled {| csv := decoded (before ++ [bytes ++ [x0a]]);
               didTruncate := true;
               bytesRead := total_bytes (before ++ [bytes ++ [x0a]]) |}.
Proof.
  intros Hb Hc. pose proof (decode_all_ends_with_LF bytes) as Hlf.
  split; [exact Hlf|].
  rewrite processResponse_crossing by assumption.
  now rewrite (ends_with_LF_fixed _ Hlf), decoded_snoc, total_bytes_snoc.
Qed.

End ConsumerBytes.

(** ** Further properties of the request launcher *)

Section LauncherMore.

Variable FLUX_RESPONSE_BYTES_LIMIT : Z.

Lemma on_rejected_other e :
  name e <> "AbortError"%string -> on_rejected e = Rejected (Failure e).
Proof.
  intros Hne. unfold on_rejected.
  destruct (String.eqb_spec (name e) "AbortError"); [contradiction|].
  reflexivity.
Qed.

Lemma abort_body_later xs : forall j tail,
  abort_body (List.length xs + j) (chunks_then xs tail) =
  chunks_then xs (abort_body j tail).
Proof.
  induction xs as [|v xs IH]; intros j tail; [reflexivity|].
  cbn [List.length Nat.add chunks_then abort_body]. now rewrite IH.
Qed.

(** X9. An error of the transport that is not an abort reaches the caller as it
    is, whether the request fails or the body fails after some chunks; the
    text read before the failure is not returned. *)
Theorem transport_error_is_passed_on chunks e :
  name e <> "AbortError"%string ->
  total_bytes chunks <= FLUX_RESPONSE_BYTES_LIMIT ->
  runQuery FLUX_RESPONSE_BYTES_LIMIT (FetchFailed e) None
    = Rejected (Failure e) /\
  runQuery FLUX_RESPONSE_BYTES_LIMIT
    (Response (chunks_then chunks (Errored e))) None
    = Rejected (Failure e).
Proof.
  intros Hne Hle. unfold runQuery, fetch, promise.
  rewrite processResponse_rejected by assumption.
  split; now apply on_rejected_other.
Qed.

(** X10. A cancel that comes after the cap was crossed changes nothing: the
    promise settles as it does when nobody cancels, with the truncated
    result. *)
Theorem cancel_after_truncation_is_noop before c tail k :
  total_bytes before <= FLUX_RESPONSE_BYTES_LIMIT ->
  total_bytes before + byteLength c > FLUX_RESPONSE_BYTES_LIMIT ->
  (List.length before < k)%nat ->
  runQuery FLUX_RESPONSE_BYTES_LIMIT
    (Response (chunks_then before (Chunk c tail))) (Some (AwaitingRead k)) =
  runQuery FLUX_RESPONSE_BYTES_LIMIT
    (Response (chunks_then before (Chunk c tail))) None /\
  runQuery FLUX_RESPONSE_BYTES_LIMIT
    (Response (chunks_then before (Chunk c tail))) None =
  Fulfilled {| csv := decoded before ++ trimPartialLines (decode_all c);
               didTruncate := true;
               bytesRead := total_bytes before + byteLength c |}.
Proof.
  intros Hb Hc Hk. unfold runQuery, fetch, promise.
  replace k with (List.length before + S (k - List.length before - 1))%nat
    by lia.
  rewrite abort_body_later. cbn [abort_body].
  rewrite !processResponse_crossing by assumption.
  split; reflexivity.
Qed.

End LauncherMore.

(** ** The bucket filter: proofs *)

Section BucketProofs.

Import Influxdb.

Context {E : Externals}.

(** What is found under a key of the query parameters. *)
Lemma QueryParams_get f k :
  map_get k (QueryParams f) =
  if String.eqb k "id" then
    option_map (fun id => [ID_String id]) (FilterID f)
  else if String.eqb k "name" then option_map (fun name => [name]) (Name f)
  else if String.eqb k "orgID" then
    option_map (fun id => [ID_String id]) (OrganizationID f)
  else if String.eqb k "org" then option_map (fun org => [org]) (Org f)
  else None.
Proof.
  destruct f as [[i|] [n|] [o|] [g|]]; cbn;
    repeat match goal with
           | |- context [String.eqb k ?c] =>
               destruct (String.eqb_spec k c); try subst k; cbn;
               try discriminate; try reflexivity
           end.
Qed.

(** X11. The query parameters hold the fields of the filter that are set, each
    under its own key with a single value, and nothing else. *)
Theorem QueryParams_lookup f k :
  map_get k (QueryParams f) =
  if String.eqb k "id" then
    option_map (fun id => [ID_String id]) (FilterID f)
  else if String.eqb k "name" then option_map (fun name => [name]) (Name f)
  else if String.eqb k "orgID" then
    option_map (fun id => [ID_String id]) (OrganizationID f)
  else if String.eqb k "org" then option_map (fun org => [org]) (Org f)
  else None.
Proof.
  destruct f as [[i|] [n|] [o|] [g|]]; cbn;
    repeat match goal with
           | |- context [String.eqb k ?c] =>
               destruct (String.eqb_spec k c); try subst k; cbn;
               try discriminate; try reflexivity
           end.
Qed.

(** X12. When [ID.String] tells IDs apart, nothing of a filter is lost in its
    query parameters: two filters with the same parameters are the same
    filter. *)
Theorem QueryParams_injective f g :
  (forall i j, ID_String i = ID_String j -> i = j) ->
  QueryParams f = QueryParams g -> f = g.
Proof.
  intros Hinj Heq.
  pose proof (QueryParams_get f "id") as Hf1.
  pose proof (QueryParams_get f "name") as Hf2.
  pose proof (QueryParams_get f "orgID") as Hf3.
  pose proof (QueryParams_get f "org") as Hf4.
  rewrite Heq in Hf1, Hf2, Hf3, Hf4.
  rewrite QueryParams_get in Hf1, Hf2, Hf3, Hf4. cbn in Hf1, Hf2, Hf3, Hf4.
  destruct f as [[i|] [n|] [o|] [a|]], g as [[i'|] [n'|] [o'|] [a'|]];
    cbn in *; try discriminate;
    repeat match goal with
           | H : Some [ID_String _] = Some [ID_String _] |- _ =>
               injection H as H; apply Hinj in H; subst
           | H : Some [_] = Some [_] |- _ => injection H as H; subst
           end; reflexivity.
Qed.

(** X13. The text of a filter is the empty pair of brackets only for the filter
    with no field set. *)
Theorem BucketFilter_String_empty f :
  BucketFilter_String f = "[]"%string <->
  FilterID f = None /\ Name f = None /\
  OrganizationID f = None /\ Org f = None.
Proof.
  split.
  - destruct f as [[i|] [n|] [o|] [a|]]; cbn; intros H;
      try discriminate H; repeat split.
  - destruct f as [i n o a]; cbn. intros (-> & -> & -> & ->). reflexivity.
Qed.

End BucketProofs.

(** ** The member handlers: proofs *)

Section MemberProofs.

Import Influxdb.

Context {E : Externals}.

Variable b : MemberBackend.

Lemma members_loop_acc mappings : forall users,
  members_loop b mappings users =
  match members_loop b mappings [] with
  | Ok found => Ok (users ++ found)
  | Err e => Err e
  end.
Proof.
  induction mappings as [|m rest IH]; intros users; cbn [members_loop].
  - now rewrite app_nil_r.
  - destruct (N.eqb _ _); [apply IH|].
    destruct (FindUserByID b (urm_UserID m)) as [user|e]; [|reflexivity].
    rewrite (IH (users ++ [user])), (IH ([] ++ [user])).
    destruct (members_loop b rest []); [|reflexivity].
    now rewrite <- app_assoc.
Qed.

(** The loop finds the users of the mappings it looks up, in their order. *)
Lemma members_loop_found mappings : forall users,
  Forall2 (fun m user => FindUserByID b (urm_UserID m) = Ok user)
    (filter looked_up mappings) users ->
  members_loop b mappings [] = Ok users.
Proof.
  induction mappings as [|m rest IH]; intros users Hall;
    cbn [members_loop filter] in *.
  - inversion Hall. reflexivity.
  - unfold looked_up in Hall at 1.
    destruct (N.eqb (urm_MappingType m) OrgMappingType); cbn [negb] in Hall.
    + now apply IH.
    + inversion Hall as [|m' user ms us Hm Hrest]; subst.
      rewrite Hm, members_loop_acc, (IH us Hrest). reflexivity.
Qed.

(** The loop stops at the first lookup that fails. *)
Lemma members_loop_failed before m after users e :
  Forall2 (fun m user => FindUserByID b (urm_UserID m) = Ok user)
    (filter looked_up before) users ->
  looked_up m = true ->
  FindUserByID b (urm_UserID m) = Err e ->
  members_loop b (before ++ m :: after) [] = Err e.
Proof.
  intros Hall Hm He. revert users Hall.
  induction before as [|m0 rest IH]; intros users Hall;
    cbn [members_loop filter app] in *.
  - unfold looked_up in Hm. apply negb_true_iff in Hm.
    now rewrite Hm, He.
  - unfold looked_up in Hall at 1.
    destruct (N.eqb (urm_MappingType m0) OrgMappingType); cbn [negb] in Hall.
    + now apply IH with (users := users).
    + inversion Hall as [|m' user ms us Hm0 Hrest]; subst.
      rewrite Hm0, members_loop_acc, (IH us Hrest). reflexivity.
Qed.

Lemma newResourceUsersResponse_Users f users :
  Users (newResourceUsersResponse f users) =
  map (fun user => newResourceUserResponse user (filter_UserType f)) users.
Proof.
  unfold newResourceUsersResponse. cbn [Users].
  assert (Hacc : forall acc,
    fold_left
      (fun rs user => rs ++ [newResourceUserResponse user (filter_UserType f)])
      users acc =
    acc ++ map (fun user => newResourceUserResponse user (filter_UserType f))
             users).
  { induction users as [|u users IH]; intros acc; cbn [fold_left map].
    - now rewrite app_nil_r.
    - rewrite IH, <- app_assoc. reflexivity. }
  apply (Hacc []).
Qed.

Lemma decodeGetMembersRequest_ok params rid :
  ByName params "id" <> EmptyString ->
  ID_DecodeFromString (ByName params "id") = Ok rid ->
  decodeGetMembersRequest params =
  Ok {| get_MemberID := 0%N; get_ResourceID := rid |}.
Proof.
  intros Hne Hid. unfold decodeGetMembersRequest.
  destruct (String.eqb_spec (ByName params "id") EmptyString);
    [contradiction|].
  now rewrite Hid.
Qed.

(** X14. The members of a resource: when the mappings of the resource are found
    and every user of a mapping that is not the mapping of an organization
    is found, the handler answers 200 with one entry for each of these
    mappings, in their order, under the role of the backend; the mappings
    of organizations give no entry. *)
Theorem get_members_lists_users encode_error params rid mappings users :
  ByName params "id" <> EmptyString ->
  ID_DecodeFromString (ByName params "id") = Ok rid ->
  FindUserResourceMappings b
    {| filter_ResourceID := rid;
       filter_ResourceType := backend_ResourceType b;
       filter_UserType := backend_UserType b |} = Ok mappings ->
  Forall2 (fun m user => FindUserByID b (urm_UserID m) = Ok user)
    (filter looked_up mappings) users ->
  exists response,
    newGetMembersHandler b encode_error params =
    encode_then_handle (EncodeUsers StatusOK response) encode_error /\
    Users response =
    map (fun user => {| Role := backend_UserType b;
                        embedded_UserResponse := newUserResponse user |})
      users /\
    List.length (Users response) = List.length (filter looked_up mappings).
Proof.
  intros Hne Hid Hfind Hall. unfold newGetMembersHandler.
  rewrite (decodeGetMembersRequest_ok params rid Hne Hid).
  cbn [get_ResourceID]. rewrite Hfind.
  rewrite (members_loop_found mappings users Hall).
  eexists. split; [reflexivity|].
  rewrite newResourceUsersResponse_Users. cbn [filter_UserType].
  split; [reflexivity|].
  rewrite length_map. symmetry. eapply Forall2_length. exact Hall.
Qed.

(** X15. The members of a resource, when a user is missing: the handler reports
    the error of the first lookup that fails and encodes nothing, not even
    the users found before. *)
Theorem get_members_first_failure
    encode_error params rid before m after users e :
  ByName params "id" <> EmptyString ->
  ID_DecodeFromString (ByName params "id") = Ok rid ->
  FindUserResourceMappings b
    {| filter_ResourceID := rid;
       filter_ResourceType := backend_ResourceType b;
       filter_UserType := backend_UserType b |}
    = Ok (before ++ m :: after) ->
  Forall2 (fun m user => FindUserByID b (urm_UserID m) = Ok user)
    (filter looked_up before) users ->
  looked_up m = true ->
  FindUserByID b (urm_UserID m) = Err e ->
  newGetMembersHandler b encode_error params = [HandleHTTPError e].
Proof.
  intros Hne Hid Hfind Hall Hm He. unfold newGetMembersHandler.
  rewrite (decodeGetMembersRequest_ok params rid Hne Hid).
  cbn [get_ResourceID]. rewrite Hfind.
  now rewrite (members_loop_failed before m after users e Hall Hm He).
Qed.

(** X16. A member is reported as created, with the status 201, exactly when the
    URL names a resource, the body names a user with a valid ID, the user
    service knows the user, and the mapping service has accepted the mapping
    of that user to that resource under the type and the role of the
    backend. *)
Theorem post_member_created encode_error params body v :
  In (EncodeUser StatusCreated v)
    (newPostMemberHandler b encode_error params body) <->
  exists rid u user,
    ByName params "id" <> EmptyString /\
    ID_DecodeFromString (ByName params "id") = Ok rid /\
    json_Decode_User body = Ok u /\
    ID_Valid (User_ID u) = true /\
    FindUserByID b (User_ID u) = Ok user /\
    CreateUserResourceMapping b
      {| urm_UserID := User_ID u;
         urm_UserType := backend_UserType b;
         urm_MappingType := 0;
         urm_ResourceType := backend_ResourceType b;
         urm_ResourceID := rid |} = None /\
    v = newResourceUserResponse user (backend_UserType b).
Proof.
  unfold newPostMemberHandler, decodePostMemberRequest. split.
  - destruct (String.eqb_spec (ByName params "id") EmptyString) as [|Hne];
      [cbn; intros [H|[]]; discriminate H|].
    destruct (ID_DecodeFromString (ByName params "id")) as [rid|e];
      [|cbn; intros [H|[]]; discriminate H].
    destruct (json_Decode_User body) as [u|e];
      [|cbn; intros [H|[]]; discriminate H].
    destruct (ID_Valid (User_ID u)) eqn:Hvalid; cbn [negb];
      [|cbn; intros [H|[]]; discriminate H].
    cbn [post_MemberID post_ResourceID].
    destruct (FindUserByID b (User_ID u)) as [user|e] eqn:Huser;
      [|cbn; intros [H|[]]; discriminate H].
    destruct (CreateUserResourceMapping b _) as [e|] eqn:Hcreate;
      [cbn; intros [H|[]]; discriminate H|].
    intros Hin. exists rid, u, user.
    repeat split; try assumption; try reflexivity.
    destruct encode_error; cbn in Hin.
    + destruct Hin as [H|[H|[]]]; [now injection H|discriminate H].
    + destruct Hin as [H|[]]. now injection H.
  - intros (rid & u & user & Hne & Hid & Hu & Hvalid & Huser & Hcreate & ->).
    destruct (String.eqb_spec (ByName params "id") EmptyString);
      [contradiction|].
    rewrite Hid, Hu, Hvalid. cbn [negb post_MemberID post_ResourceID].
    rewrite Huser, Hcreate. destruct encode_error; now left.
Qed.

(** X17. A member is reported as deleted, with the status 204, exactly when the
    URL names the resource and the member and the mapping service has
    deleted the mapping; in every other case the reply is an error. *)
Theorem delete_member_no_content params :
  newDeleteMemberHandler b params = [WriteHeader StatusNoContent] <->
  exists rid mid,
    ByName params "id" <> EmptyString /\
    ID_DecodeFromString (ByName params "id") = Ok rid /\
    ByName params "userID" <> EmptyString /\
    ID_DecodeFromString (ByName params "userID") = Ok mid /\
    DeleteUserResourceMapping b rid mid = None.
Proof.
  unfold newDeleteMemberHandler, decodeDeleteMemberRequest. split.
  - destruct (String.eqb_spec (ByName params "id") EmptyString) as [|Hne];
      [discriminate|].
    destruct (ID_DecodeFromString (ByName params "id")) as [rid|e];
      [|discriminate].
    destruct (String.eqb_spec (ByName params "userID") EmptyString)
      as [|Hne'']; [discriminate|].
    destruct (ID_DecodeFromString (ByName params "userID")) as [mid|e];
      [|discriminate].
    cbn [delete_MemberID delete_ResourceID].
    destruct (DeleteUserResourceMapping b rid mid) eqn:Hdel; [discriminate|].
    intros _. exists rid, mid. repeat split; assumption.
  - intros (rid & mid & Hne & Hid & Hne' & Hmid & Hdel).
    destruct (String.eqb_spec (ByName params "id") EmptyString);
      [contradiction|].
    rewrite Hid.
    destruct (String.eqb_spec (ByName params "userID") EmptyString);
      [contradiction|].
    rewrite Hmid. cbn [delete_MemberID delete_ResourceID].
    now rewrite Hdel.
Qed.

End MemberProofs.

(** ** The further properties at concrete inputs *)

(** The payload of three records twice, with the cap at 8: the first chunk
    crosses the cap and the second one is never read. *)
Lemma three_records_run :
  processResponse 8 (payload [three_records; three_records]) =
  (Fulfilled {| csv := decoded [three_records];
                didTruncate := true;
                bytesRead := 12 |},
   {| body := Closed; delivered := [three_records]; cancel_calls := 1 |}).
Proof. vm_compute. reflexivity. Qed.

Lemma result_text_is_prefix_witness :
  prefix (decoded [three_records]) (decoded [three_records]).
Proof.
  exact (proj1 (result_text_is_prefix 8 _ _ _ three_records_run)).
Defined.

(** The character U+1F600 takes four bytes and two code units; the chunk
    ends with a newline. *)
Lemma result_text_within_bytes_witness :
  processResponse 100 (payload [[xf0; x9f; x98; x80; x0a]]) =
  (Fulfilled {| csv := [0xD83D; 0xDE00; 10];
                didTruncate := false;
                bytesRead := 5 |},
   {| body := Closed;
      delivered := [[xf0; x9f; x98; x80; x0a]];
      cancel_calls := 1 |}) /\
  str_length [0xD83D; 0xDE00; 10] <= 5.
Proof.
  assert (Hrun :
    processResponse 100 (payload [[xf0; x9f; x98; x80; x0a]]) =
    (Fulfilled {| csv := [0xD83D; 0xDE00; 10];
                  didTruncate := false;
                  bytesRead := 5 |},
     {| body := Closed;
        delivered := [[xf0; x9f; x98; x80; x0a]];
        cancel_calls := 1 |})) by (vm_compute; reflexivity).
  split; [exact Hrun|].
  exact (result_text_within_bytes 100 _ _ _ Hrun).
Defined.

Lemma overshoot_within_one_chunk_witness :
  0 <= 8 /\
  exists before c,
    [three_records] = before ++ [c] /\
    total_bytes before <= 8 /\
    12 = total_bytes before + byteLength c /\
    12 <= 8 + byteLength c.
Proof.
  assert (H0 : 0 <= 8) by lia.
  split; [exact H0|].
  exact (overshoot_within_one_chunk 8 _ _ _ H0 three_records_run eq_refl).
Defined.

(** After the crossing chunk, an error of the body or more chunks: the same
    result. *)
Lemma nothing_read_after_crossing_witness :
  total_bytes [[x61; x0a]] <= 3 /\
  total_bytes [[x61; x0a]] + byteLength [x62; x0a; x63] > 3 /\
  fst (processResponse 3
         (chunks_then [[x61; x0a]]
            (Chunk [x62; x0a; x63] (Errored {| name := "NetworkError" |})))) =
  fst (processResponse 3
         (chunks_then [[x61; x0a]]
            (Chunk [x62; x0a; x63] (payload [three_records])))).
Proof.
  assert (H1 : total_bytes [[x61; x0a]] <= 3) by (vm_compute; discriminate).
  assert (H2 : total_bytes [[x61; x0a]] + byteLength [x62; x0a; x63] > 3)
    by reflexivity.
  split; [exact H1|]. split; [exact H2|].
  exact (proj1 (nothing_read_after_crossing 3 [[x61; x0a]] [x62; x0a; x63]
                  (Errored {| name := "NetworkError" |})
                  (payload [three_records]) H1 H2)).
Defined.

(** The three records, one chunk for each. *)
Lemma single_byte_payload_chunking_witness :
  forallb ascii_only
    [[x61; x2c; x62; x0a]; [x63; x2c; x64; x0a]; [x65; x2c; x66; x0a]]
    = true /\
  total_bytes
    [[x61; x2c; x62; x0a]; [x63; x2c; x64; x0a]; [x65; x2c; x66; x0a]]
    <= 100 /\
  fst (processResponse 100
         (payload
            [[x61; x2c; x62; x0a]; [x63; x2c; x64; x0a];
             [x65; x2c; x66; x0a]])) =
  Fulfilled {| csv := map Utf8.byte_val three_records;
               didTruncate := false;
               bytesRead := byteLength three_records |}.
Proof.
  assert (H1 : forallb ascii_only
    [[x61; x2c; x62; x0a]; [x63; x2c; x64; x0a]; [x65; x2c; x66; x0a]]
    = true) by reflexivity.
  assert (H2 : total_bytes
    [[x61; x2c; x62; x0a]; [x63; x2c; x64; x0a]; [x65; x2c; x66; x0a]]
    <= 100) by (vm_compute; discriminate).
  split; [exact H1|]. split; [exact H2|].
  exact (single_byte_payload_chunking 100 _ H1 H2).
Defined.

(** A crossing chunk that is the second byte of a character cut in two,
    then a newline byte. *)
Lemma crossing_chunk_ending_with_newline_byte_witness :
  total_bytes [[x61; xc3]] <= 3 /\
  total_bytes [[x61; xc3]] + byteLength ([xa9; x62] ++ [x0a]) > 3 /\
  ends_with_LF (decode_all ([xa9; x62] ++ [x0a])).
Proof.
  assert (H1 : total_bytes [[x61; xc3]] <= 3) by (vm_compute; discriminate).
  assert (H2 : total_bytes [[x61; xc3]] + byteLength ([xa9; x62] ++ [x0a]) > 3)
    by reflexivity.
  split; [exact H1|]. split; [exact H2|].
  exact (proj1 (crossing_chunk_ending_with_newline_byte 3 [[x61; xc3]]
                  [xa9; x62] Closed H1 H2)).
Defined.

Lemma transport_error_is_passed_on_witness :
  name {| name := "NetworkError" |} <> "AbortError"%string /\
  total_bytes [[x61; x2c; x62; x0a]] <= 100 /\
  runQuery 100
    (Response (chunks_then [[x61; x2c; x62; x0a]]
                 (Errored {| name := "NetworkError" |}))) None =
  Rejected (Failure {| name := "NetworkError" |}).
Proof.
  assert (H1 : name {| name := "NetworkError" |} <> "AbortError"%string)
    by (cbn; discriminate).
  assert (H2 : total_bytes [[x61; x2c; x62; x0a]] <= 100)
    by (vm_compute; discriminate).
  split; [exact H1|]. split; [exact H2|].
  exact (proj2 (transport_error_is_passed_on 100 _ _ H1 H2)).
Defined.

(** The cap is crossed on the first chunk, and the caller cancels during
    what would have been the wait for the third chunk. *)
Lemma cancel_after_truncation_is_noop_witness :
  total_bytes [] <= 8 /\
  total_bytes [] + byteLength three_records > 8 /\
  (List.length (@nil (list byte)) < 2)%nat /\
  runQuery 8 (Response (chunks_then [] (Chunk three_records Closed)))
    (Some (AwaitingRead 2)) =
  runQuery 8 (Response (chunks_then [] (Chunk three_records Closed))) None.
Proof.
  assert (H1 : total_bytes [] <= 8) by (vm_compute; discriminate).
  assert (H2 : total_bytes [] + byteLength three_records > 8) by reflexivity.
  assert (H3 : (List.length (@nil (list byte)) < 2)%nat) by (cbn; lia).
  split; [exact H1|]. split; [exact H2|]. split; [exact H3|].
  exact (proj1 (cancel_after_truncation_is_noop 8 [] three_records Closed 2
                  H1 H2 H3)).
Defined.

Lemma pos_string_injective p : forall q,
  Influxdb.pos_string p = Influxdb.pos_string q -> p = q.
Proof.
  induction p as [p IH|p IH|]; intros [q|q|]; cbn; intros H;
    try discriminate H; try reflexivity;
    injection H as H; f_equal; now apply IH.
Qed.

Lemma N_string_injective i j :
  Influxdb.N_string i = Influxdb.N_string j -> i = j.
Proof.
  destruct i as [|p], j as [|q]; cbn; intros H;
    try discriminate H; try reflexivity.
  injection H as H. f_equal. now apply pos_string_injective.
Qed.

Lemma QueryParams_injective_witness :
  (forall i j, Influxdb.N_string i = Influxdb.N_string j -> i = j) /\
  Influxdb.Build_BucketFilter (Some 5%N) (Some "b"%string) None None =
  Influxdb.Build_BucketFilter (Some 5%N) (Some "b"%string) None None.
Proof.
  split; [exact N_string_injective|].
  exact (@QueryParams_injective Influxdb.sample_externals _ _
           N_string_injective eq_refl).
Defined.

(** The sample backend whose user service knows every user: the members of
    the resource 5 are the users 2 and 3; the mapping of the organization 9
    gives no entry. *)
Lemma get_members_lists_users_witness :
  exists response,
    @Influxdb.newGetMembersHandler Influxdb.sample_externals
      (Influxdb.sample_backend (fun _ => true)) None
      [("id"%string, Influxdb.N_string 5)] =
    [Influxdb.EncodeUsers 200 response] /\
    List.length (Influxdb.Users response) = 2%nat.
Proof.
  destruct (@get_members_lists_users Influxdb.sample_externals
              (Influxdb.sample_backend (fun _ => true)) None
              [("id"%string, Influxdb.N_string 5)] 5%N
              _ [2%N; 3%N]
              ltac:(cbn; discriminate) eq_refl eq_refl
              ltac:(repeat constructor))
    as (response & Hrun & _ & Hlen).
  exists response. split; [exact Hrun|exact Hlen].
Defined.

(** The sample backend whose user service knows the user 2 only: the lookup
    of the user 3 fails and is all that the handler reports. *)
Lemma get_members_first_failure_witness :
  @Influxdb.newGetMembersHandler Influxdb.sample_externals
    (Influxdb.sample_backend (N.eqb 2)) None
    [("id"%string, Influxdb.N_string 5)] =
  [Influxdb.HandleHTTPError (Influxdb.ForeignError "user not found")].
Proof.
  exact (@get_members_first_failure Influxdb.sample_externals
           (Influxdb.sample_backend (N.eqb 2)) None
           [("id"%string, Influxdb.N_string 5)] 5%N
           [ Influxdb.Build_UserResourceMapping
               9%N "member" 1%N "buckets" 5%N;
             Influxdb.Build_UserResourceMapping
               2%N "member" 0%N "buckets" 5%N ]
           (Influxdb.Build_UserResourceMapping
              3%N "member" 0%N "buckets" 5%N)
           [] [2%N] (Influxdb.ForeignError "user not found")
           ltac:(cbn; discriminate) eq_refl eq_refl
           ltac:(repeat constructor) eq_refl eq_refl).
Defined.

(** The euro sign, three bytes, whole in the first chunk; a four-byte
    character whole in the second. *)
Lemma aligned_payload_within_cap_witness :
  aligned [[x61; xe2; x82; xac]; [xf0; x9f; x98; x80; x0a]] = true /\
  total_bytes [[x61; xe2; x82; xac]; [xf0; x9f; x98; x80; x0a]] <= 9 /\
  fst (processResponse 9
         (payload [[x61; xe2; x82; xac]; [xf0; x9f; x98; x80; x0a]])) =
  Fulfilled
    {| csv :=
         decode_all
           (List.concat [[x61; xe2; x82; xac]; [xf0; x9f; x98; x80; x0a]]);
       didTruncate := false;
       bytesRead :=
         total_bytes [[x61; xe2; x82; xac]; [xf0; x9f; x98; x80; x0a]] |}.
Proof.
  assert (H1 :
    aligned [[x61; xe2; x82; xac]; [xf0; x9f; x98; x80; x0a]] = true)
    by reflexivity.
  assert (H2 :
    total_bytes [[x61; xe2; x82; xac]; [xf0; x9f; x98; x80; x0a]] <= 9)
    by (vm_compute; discriminate).
  split; [exact H1|]. split; [exact H2|].
  exact (aligned_payload_within_cap 9 _ H1 H2).
Defined.

Lemma aligned_crossing_chunk_ending_with_LF_witness :
  total_bytes [[x61; xc3; xa9]] <= 3 /\
  total_bytes [[x61; xc3; xa9]] + byteLength [x62; x0a] > 3 /\
  ends_with_LF (decode_all [x62; x0a]) /\
  aligned ([[x61; xc3; xa9]] ++ [[x62; x0a]]) = true /\
  fst (processResponse 3
         (chunks_then [[x61; xc3; xa9]] (Chunk [x62; x0a] Closed))) =
  Fulfilled
    {| csv := decode_all (List.concat ([[x61; xc3; xa9]] ++ [[x62; x0a]]));
       didTruncate := true;
       bytesRead := total_bytes ([[x61; xc3; xa9]] ++ [[x62; x0a]]) |}.
Proof.
  assert (H1 : total_bytes [[x61; xc3; xa9]] <= 3)
    by (vm_compute; discriminate).
  assert (H2 : total_bytes [[x61; xc3; xa9]] + byteLength [x62; x0a] > 3)
    by reflexivity.
  assert (H3 : ends_with_LF (decode_all [x62; x0a]))
    by (exists [98]; reflexivity).
  assert (H4 : aligned ([[x61; xc3; xa9]] ++ [[x62; x0a]]) = true)
    by reflexivity.
  split; [exact H1|]. split; [exact H2|]. split; [exact H3|].
  split; [exact H4|].
  exact (aligned_crossing_chunk_ending_with_LF 3 _ _ Closed H1 H2 H3 H4).
Defined.
